(** * go-commons: error merging, retry loop and the gorm repository driver

    A shallow embedding of the parts of [pkg/errorlib] and of the
    persistence wrapper ([GormRepositoryDriver], [DbFnWithRetry]) that the
    specification talks about, followed by the theorems that relate the
    specification to the code.

    Conventions.
    - A Go [int] / [int64] is a [Z] kept in the 64-bit two's complement
      range by [wrap]; arithmetic goes through [int_add] and [int_mul].
    - A Go [error] is [option error]: [None] is the nil interface, and a
      non-nil error is either the sentinel [gorm.ErrRecordNotFound]
      (compared by identity in the source) or a value made by
      [errors.New] / [fmt.Errorf].
    - Calls into gorm and [database/sql] are answered by a [Backend]
      oracle that sees the whole history of earlier calls; every call is
      appended to that history together with its answer.
    - The driver's mutex is not modelled: operations are run one at a
      time. *)

From Stdlib Require Import ZArith String Ascii List DecimalString.
From stdpp Require Import gmap strings list.

Open Scope Z_scope.
Set Warnings "-register-all,-clear-no-such-hyp".

(* ================================================================== *)
(** * Machine integers *)

Module GoInt.

(** The width of [int] on the 64-bit platforms. *)
Definition int_bits : Z := 64.
Definition min_int : Z := - 2 ^ (int_bits - 1).
Definition max_int : Z := 2 ^ (int_bits - 1) - 1.

(** Two's complement reduction to [min_int .. max_int]. *)
Definition wrap (z : Z) : Z :=
  (z - min_int) mod 2 ^ int_bits + min_int.

Definition int_add (a b : Z) : Z := wrap (a + b).
Definition int_mul (a b : Z) : Z := wrap (a * b).

Definition in_range (z : Z) : Prop := min_int <= z <= max_int.

End GoInt.
Import GoInt.

(* ================================================================== *)
(** * Strings: the functions of packages [strings] and [fmt] in use *)

Module GoStrings.

(** [strings.HasPrefix]:
    [len(s) >= len(prefix) && s[0:len(prefix)] == prefix]. *)
Definition HasPrefix (s prefix : string) : bool :=
  (String.length prefix <=? String.length s)%nat
  && String.eqb (substring 0 (String.length prefix) s) prefix.

(** [strings.HasSuffix]:
    [len(s) >= len(suffix) && s[len(s)-len(suffix):] == suffix]. *)
Definition HasSuffix (s suffix : string) : bool :=
  (String.length suffix <=? String.length s)%nat
  && String.eqb
       (substring (String.length s - String.length suffix)
                  (String.length suffix) s)
       suffix.

(** [strings.Contains]: some position of [s] starts a copy of [substr]. *)
Fixpoint Contains (s substr : string) : bool :=
  HasPrefix s substr
  || match s with
     | EmptyString => false
     | String _ s' => Contains s' substr
     end.

(** The verb [%v] applied to an integer. *)
Definition fmt_int (z : Z) : string := NilZero.string_of_int (Z.to_int z).

(** The double quote character, for messages that contain one. *)
Definition dquote : string :=
  String (Ascii false true false false false true false false) EmptyString.

End GoStrings.
Import GoStrings.

(* ================================================================== *)
(** * Errors and [errorlib.Merge] *)

(** A non-nil Go error.  [gorm.ErrRecordNotFound] is a package-level
    value that the source compares with [==]; every other error is known
    by its message only. *)
Inductive error : Type :=
  | ErrRecordNotFound
  | errors_New (msg : string).

(** The method [err.Error()]. *)
Definition Error (e : error) : string :=
  match e with
  | ErrRecordNotFound => "record not found"
  | errors_New msg => msg
  end.

(** [err != nil]. *)
Definition not_nil (err : option error) : bool :=
  match err with
  | Some _ => true
  | None => false
  end.

(** [%v] / [%s] applied to a possibly nil error. *)
Definition fmt_error (e : option error) : string :=
  match e with
  | None => "<nil>"
  | Some e => Error e
  end.

Module errorlib.

(** One turn of the [for _, err := range errs] loop of [Merge]; the
    state is the buffer and [numErrors]. *)
Definition Merge_step (st : string * Z) (err : option error) : string * Z :=
  match err with
  | None => st
  | Some e =>
      let buf := if 0 <? st.2 then st.1 +:+ ", " else st.1 in
      (buf +:+ Error e, int_add st.2 1)
  end.

Definition Merge (errs : list (option error)) : option error :=
  match errs with
  | [] => None
  | [e] => e
  | _ =>
      let st := fold_left Merge_step errs (EmptyString, 0) in
      if st.2 =? 0 then None
      else if st.2 =? 1 then Some (errors_New st.1)
      else Some (errors_New (fmt_int st.2 +:+ " errors: " +:+ st.1))
  end.

End errorlib.

(* ================================================================== *)
(** * Values that cross the driver's interface *)

(** A [*gorm.DB] seen as the answer of a gorm call: the two fields the
    wrapper reads. *)
Module gorm.
Record DB : Type := { Error : option error; RowsAffected : Z }.
End gorm.

(** A [*gorm.DB] seen as a handle: the connection opened for a
    descriptor, or a transaction begun on a handle. *)
Inductive Conn : Type :=
  | Handle (driverName connectionString : string)
  | Tx (db : Conn).

(** [reflect.Kind], for the kinds of the values modelled below. *)
Inductive Kind : Type :=
  | Invalid | Bool | Int | Int64 | String_ | Struct | Ptr | Slice.

(** An [interface{}] argument: a record, a pointer to one, a list ... *)
Inductive Value : Type :=
  | VNil
  | VBool (b : bool)
  | VInt (z : Z)
  | VInt64 (z : Z)
  | VString (s : string)
  | VStruct (typeName : string) (fields : list Value)
  | VPtr (target : Value)
  | VSlice (elems : list Value).

(** [reflect.ValueOf(v).Kind()]. *)
Definition Kind_of (v : Value) : Kind :=
  match v with
  | VNil => Invalid
  | VBool _ => Bool
  | VInt _ => Int
  | VInt64 _ => Int64
  | VString _ => String_
  | VStruct _ _ => Struct
  | VPtr _ => Ptr
  | VSlice _ => Slice
  end.

Definition Kind_eqb (a b : Kind) : bool :=
  match a, b with
  | Invalid, Invalid | Bool, Bool | Int, Int | Int64, Int64
  | String_, String_ | Struct, Struct | Ptr, Ptr | Slice, Slice => true
  | _, _ => false
  end.

(** A [driver.Value] as [database/sql] hands it to [Scan]. *)
Inductive Cell : Type :=
  | CNull
  | CInt64 (z : Z)
  | CBool (b : bool)
  | CBytes (s : string)
  | CString (s : string).

(** Element types of the raw-query destinations of [Raw]: those of the
    map shapes, and the primitive ones that the scalar and slice shapes
    are limited to. *)
Inductive ElemTy : Type :=
  | TBool | TInt | TInt64 | TByte | TBytes | TString | TIface.

Inductive ScalarTy : Type :=
  | SBool | SInt | SInt64 | SByte | SString.

Definition elem (t : ScalarTy) : ElemTy :=
  match t with
  | SBool => TBool
  | SInt => TInt
  | SInt64 => TInt64
  | SByte => TByte
  | SString => TString
  end.

(** A Go value of one of the element types; [GIface] is an
    [interface{}] holding what the database driver returned. *)
Inductive GoVal : Type :=
  | GBool (b : bool)
  | GInt (z : Z)
  | GInt64 (z : Z)
  | GByte (z : Z)
  | GBytes (s : option string)
  | GString (s : string)
  | GIface (c : Cell).

Definition zero_value (ty : ElemTy) : GoVal :=
  match ty with
  | TBool => GBool false
  | TInt => GInt 0
  | TInt64 => GInt64 0
  | TByte => GByte 0
  | TBytes => GBytes None
  | TString => GString EmptyString
  | TIface => GIface CNull
  end.

(** The name [%T] prints for an element type. *)
Definition ty_name (ty : ElemTy) : string :=
  match ty with
  | TBool => "bool"
  | TInt => "int"
  | TInt64 => "int64"
  | TByte => "uint8"
  | TBytes => "[]uint8"
  | TString => "string"
  | TIface => "interface {}"
  end.

(** A [*sql.Rows]: the answer of [Columns()] and the rows that
    [Next()] walks through. *)
Record sql_Rows : Type := {
  Columns : error + list string;
  data : list (list Cell)
}.

(** The destination of [Raw], by shape; a nil map or slice is [None]. *)
Inductive RawDest : Type :=
  | DScalar (ty : ScalarTy) (v : GoVal)
  | DSlice (ty : ScalarTy) (vs : option (list GoVal))
  | DSlice2 (ty : ScalarTy) (vs : option (list (list GoVal)))
  | DMap (ty : ElemTy) (m : option (gmap string GoVal))
  | DSliceMap (ty : ElemTy) (ms : option (list (gmap string GoVal)))
  | DOther (v : Value).

(** The gorm calls the driver issues on a handle. *)
Inductive Call : Type :=
  | db_Begin
  | db_Commit
  | db_Rollback
  | db_Save (value : Value)
  | db_Delete (value : Value)
  | db_UpdateColumns (value values : Value)
  | db_Where_First (value : Value)
  | db_Create (value : Value)
  | db_Raw (query : string) (args : list Value).

(** One call into gorm or [database/sql], with its answer. *)
Inductive Event : Type :=
  | EvOpen (driverName connectionString : string) (err : option error)
  | EvPing (db : Conn) (err : option error)
  | EvCall (db : Conn) (call : Call) (res : gorm.DB)
  | EvRows (db : Conn) (query : string) (args : list Value)
           (res : error + sql_Rows)
  | EvRowsClose (db : Conn)
  | EvScan (db : Conn) (query : string) (args : list Value) (dest : Value)
           (res : option error * Value).

(** The database and the libraries in front of it: each answer may
    depend on everything that was asked before. *)
Record Backend : Type := {
  gorm_Open : list Event -> string -> string -> option error;
  sql_Ping : list Event -> Conn -> option error;
  gorm_call : list Event -> Conn -> Call -> gorm.DB;
  gorm_Rows : list Event -> Conn -> string -> list Value -> error + sql_Rows;
  gorm_Scan : list Event -> Conn -> string -> list Value -> Value ->
              option error * Value;
  convertAssign : ElemTy -> Cell -> error + GoVal
}.

(* ================================================================== *)
(** * [container/ring] as the driver uses it *)

Module ring.

(** A ring of [n] elements and a position in it; [Value] of an element
    is an [interface{}], nil until set.  The nil [*Ring] that
    [ring.New(0)] returns is the ring with no element. *)
Record Ring : Type := { items : list (option string); pos : nat }.

Definition New (n : nat) : Ring :=
  {| items := replicate n None; pos := 0 |}.

(** [r.Value = v]. *)
Definition set_Value (r : Ring) (v : string) : Ring :=
  {| items := <[pos r := Some v]> (items r); pos := pos r |}.

(** [r.Next()]; the driver never calls it on the nil ring. *)
Definition Next (r : Ring) : Ring :=
  {| items := items r; pos := (S (pos r) mod length (items r))%nat |}.

(** [r.Value.(string)]: [None] when the ring is nil or the element
    holds no string, where the source panics. *)
Definition Value_string (r : Ring) : option string :=
  mjoin (items r !! pos r).

End ring.

(* ================================================================== *)
(** * The driver *)

Module repository.

Record GormRepositoryDriver : Type := {
  driverName : string;
  connectionStrings : ring.Ring;
  currentDb : option Conn
}.

(** [NewGormRepositoryDriver]; [None] is the panic of the last
    statement when no connection string was given. *)
Definition NewGormRepositoryDriver
    (driverName : string) (connectionStrings : list string)
    : option GormRepositoryDriver :=
  let r :=
    fold_left (fun r connectionString =>
                 ring.Next (ring.set_Value r connectionString))
              connectionStrings (ring.New (length connectionStrings)) in
  match ring.Value_string r with
  | None => None
  | Some _ =>
      Some {| driverName := driverName;
              connectionStrings := r;
              currentDb := None |}
  end.

(** ** State, outcomes and the monad of driver operations *)

Record State : Type := {
  driver : GormRepositoryDriver;
  history : list Event
}.

Inductive Outcome (A : Type) : Type :=
  | Ret (a : A) (s : State)
  | Panic.
Arguments Ret {A} a s.
Arguments Panic {A}.

Definition M (A : Type) : Type := State -> Outcome A.

Definition ret {A} (a : A) : M A := fun s => Ret a s.

Definition bind {A B} (m : M A) (k : A -> M B) : M B :=
  fun s =>
    match m s with
    | Ret a s' => k a s'
    | Panic => Panic
    end.

Definition panic {A} : M A := fun _ => Panic.

Declare Scope go_scope.
Delimit Scope go_scope with go.
Notation "x <- m ;; k" := (bind m (fun x => k))
  (at level 100, m at next level, right associativity) : go_scope.
Notation "m ;; k" := (bind m (fun _ => k))
  (at level 100, right associativity) : go_scope.
Open Scope go_scope.

Definition get_driver : M GormRepositoryDriver :=
  fun s => Ret (driver s) s.

Definition put_driver (d : GormRepositoryDriver) : M unit :=
  fun s => Ret tt {| driver := d; history := history s |}.

(** Ask the backend, and log the question with its answer. *)
Definition ask {A} (answer : list Event -> A) (ev : A -> Event) : M A :=
  fun s =>
    let a := answer (history s) in
    Ret a {| driver := driver s; history := history s ++ [ev a] |}.

Section Driver.

Variable bk : Backend.

Definition call (db : Conn) (c : Call) : M gorm.DB :=
  ask (fun h => gorm_call bk h db c) (EvCall db c).

(** [fmt.Errorf(tag + "%s", err)]. *)
Definition Errorf_s (tag : string) (err : error) : error :=
  errors_New (tag +:+ Error err).

(** ** Connecting *)

(** [DbConnect]: open, ping, then configure the handle (pool sizes,
    singular table names, logging, the soft-delete callbacks), which
    cannot fail. *)
Definition DbConnect (driver connectionString : string) : M (error + Conn) :=
  err <- ask (fun h => gorm_Open bk h driver connectionString)
             (EvOpen driver connectionString) ;;
  match err with
  | Some e => ret (inl e)
  | None =>
      let db := Handle driver connectionString in
      err <- ask (fun h => sql_Ping bk h db) (EvPing db) ;;
      match err with
      | Some e => ret (inl e)
      | None => ret (inr db)
      end
  end.

(** ** The connection rotator *)

Definition db : M (error + Conn) :=
  d <- get_driver ;;
  match currentDb d with
  | None =>
      match ring.Value_string (connectionStrings d) with
      | None => panic
      | Some connectionString =>
          r <- DbConnect (driverName d) connectionString ;;
          let d := {| driverName := driverName d;
                      connectionStrings := ring.Next (connectionStrings d);
                      currentDb := currentDb d |} in
          put_driver d ;;
          match r with
          | inl err => ret (inl err)
          | inr db =>
              put_driver {| driverName := driverName d;
                            connectionStrings := connectionStrings d;
                            currentDb := Some db |} ;;
              ret (inr db)
          end
      end
  | Some db => ret (inr db)
  end.

Definition reset : M unit :=
  d <- get_driver ;;
  put_driver {| driverName := driverName d;
                connectionStrings := connectionStrings d;
                currentDb := None |}.

Definition isConnectionError (err : error) : bool :=
  let errMsg := Error err in
  if HasPrefix errMsg "dial tcp " && HasSuffix errMsg ": connection refused"
  then true
  else false.

(** [withDb].  The closure [fn] may assign variables of the enclosing
    method; [env] is their value before the call, and the result carries
    their value after it. *)
Definition withDb {E} (fn : Conn -> E -> M (option error * E)) (env : E)
    : M (option error * E) :=
  r <- db ;;
  match r with
  | inl err => ret (Some err, env)
  | inr db =>
      r <- fn db env ;;
      match r.1 with
      | Some err =>
          (if isConnectionError err then reset else ret tt) ;;
          ret (Some err, r.2)
      | None => ret (None, r.2)
      end
  end.

Definition txFunc : Type := Conn -> M (option error).

(** The [for _, fn := range txFuncs] loop of [inTransaction]: [Some err]
    when the closure returns [err] from inside the loop, [None] when the
    loop runs to its end. *)
Fixpoint run_txFuncs (tx : Conn) (txFuncs : list txFunc)
    : M (option (option error)) :=
  match txFuncs with
  | [] => ret None
  | fn :: txFuncs =>
      err <- fn tx ;;
      match err with
      | Some e =>
          rb <- call tx db_Rollback ;;
          ret (Some (errorlib.Merge [Some e; gorm.Error rb]))
      | None => run_txFuncs tx txFuncs
      end
  end.

Definition inTransaction (txFuncs : list txFunc) : M (option error) :=
  r <- withDb (fun db (_ : unit) =>
         b <- call db db_Begin ;;
         let tx := Tx db in
         match gorm.Error b with
         | Some e =>
             rb <- call tx db_Rollback ;;
             ret (errorlib.Merge [Some e; gorm.Error rb], tt)
         | None =>
             returned <- run_txFuncs tx txFuncs ;;
             match returned with
             | Some err => ret (err, tt)
             | None =>
                 c <- call tx db_Commit ;;
                 match gorm.Error c with
                 | Some e =>
                     rb <- call tx db_Rollback ;;
                     ret (errorlib.Merge [Some e; gorm.Error rb], tt)
                 | None => ret (None, tt)
                 end
             end
         end) tt ;;
  ret r.1.

(** ** Saving, updating, deleting *)

Definition Save (value : Value) : M (option error) :=
  r <- withDb (fun db (_ : unit) =>
         res <- call db (db_Save value) ;;
         ret (gorm.Error res, tt)) tt ;;
  ret r.1.

(** A [for] loop that issues one call per value and stops at the first
    error ([SaveMultiple], [DeleteMultiple]). *)
Fixpoint each_value (tx : Conn) (c : Value -> Call) (values : list Value)
    : M (option error) :=
  match values with
  | [] => ret None
  | value :: values =>
      res <- call tx (c value) ;;
      match gorm.Error res with
      | Some e => ret (Some e)
      | None => each_value tx c values
      end
  end.

Definition SaveMultiple (values : list Value) : M (option error) :=
  match values with
  | [] => ret None
  | _ => inTransaction [fun tx => each_value tx db_Save values]
  end.

Definition Update (value values : Value) : M (Z * option error) :=
  r <- withDb (fun db (rowsAffected : Z) =>
         res <- call db (db_UpdateColumns value values) ;;
         match gorm.Error res with
         | Some e => ret (Some e, rowsAffected)
         | None => ret (None, gorm.RowsAffected res)
         end) 0 ;;
  match r.1 with
  | Some err => ret (r.2, Some (Errorf_s "gorm driver: upd- " err))
  | None => ret (r.2, None)
  end.

Definition UpdateSingle (value values : Value) : M (option error) :=
  inTransaction [fun tx =>
    scope <- call tx (db_UpdateColumns value values) ;;
    match gorm.Error scope with
    | Some e => ret (Some e)
    | None =>
        let rowsAffected := gorm.RowsAffected scope in
        if negb (rowsAffected =? 1) then
          ret (Some (errors_New
            ("gorm driver: upd1- 1 row should have been affected but instead "
             +:+ fmt_int rowsAffected +:+ " rows were affected")))
        else ret None
    end].

Definition Delete (value : Value) : M (option error) :=
  r <- withDb (fun db (_ : unit) =>
         res <- call db (db_Delete value) ;;
         match gorm.Error res with
         | Some e => ret (Some (Errorf_s "gorm driver: del- " e), tt)
         | None => ret (None, tt)
         end) tt ;;
  ret r.1.

Definition DeleteMultiple (values : list Value) : M (option error) :=
  match values with
  | [] => ret None
  | _ =>
      if (length values =? 1)%nat
         && Kind_eqb (Kind_of (default VNil (head values))) Slice
      then
        ret (Some (errors_New
          "gorm driver: dlm- invalid arguments to DeleteMultiple; did you forget the `...`?"))
      else
        err <- inTransaction [fun tx => each_value tx db_Delete values] ;;
        match err with
        | Some e => ret (Some (Errorf_s "gorm driver: dlm- " e))
        | None => ret None
        end
  end.

Definition is_ErrRecordNotFound (err : option error) : bool :=
  match err with
  | Some ErrRecordNotFound => true
  | _ => false
  end.

Definition GetOrCreate (value : Value) : M (bool * option error) :=
  r <- withDb (fun db (created : bool) =>
         res <- call db (db_Where_First value) ;;
         if is_ErrRecordNotFound (gorm.Error res) then
           res <- call db (db_Create value) ;;
           ret (gorm.Error res, true)
         else ret (gorm.Error res, created)) false ;;
  match r.1 with
  | Some err => ret (r.2, Some (Errorf_s "gorm driver: goc- " err))
  | None => ret (r.2, None)
  end.

(** ** Raw queries *)

Definition log_event (ev : Event) : M unit :=
  fun s => Ret tt {| driver := driver s; history := history s ++ [ev] |}.

(** What [Scan] stores through a pointer to a [ty]; a pointer to an
    [interface{}] takes the driver's value as it is. *)
Definition convert (ty : ElemTy) (c : Cell) : error + GoVal :=
  match ty with
  | TIface => inr (GIface c)
  | _ => convertAssign bk ty c
  end.

(** What [Scan] stores through a pointer to a [*ty], as the 2D shapes
    ask: nil for NULL, which the caller turns into the zero value. *)
Definition convert_nullable (ty : ElemTy) (c : Cell) : error + GoVal :=
  match c with
  | CNull => inr (zero_value ty)
  | _ => convert ty c
  end.

Fixpoint convert_all (conv : Cell -> error + GoVal) (row : list Cell)
    : error + list GoVal :=
  match row with
  | [] => inr []
  | c :: row =>
      match conv c with
      | inl e => inl e
      | inr v =>
          match convert_all conv row with
          | inl e => inl e
          | inr vs => inr (v :: vs)
          end
      end
  end.

(** [rows.Scan(dest...)] on the current row with [n] destinations. *)
Definition Scan (conv : Cell -> error + GoVal) (n : nat) (row : list Cell)
    : error + list GoVal :=
  if (length row =? n)%nat then convert_all conv row
  else inl (errors_New
         ("sql: expected " +:+ fmt_int (Z.of_nat (length row))
          +:+ " destination arguments in Scan, not "
          +:+ fmt_int (Z.of_nat n))).

(** [rows.Scan(&x)]. *)
Definition Scan1 (ty : ElemTy) (row : list Cell) : error + GoVal :=
  match Scan (convert ty) 1 row with
  | inl e => inl e
  | inr vs => inr (default (zero_value ty) (head vs))
  end.

(** [rows.Next(); rows.Scan(&x)]: the first row, or the error of a
    [Scan] after [Next] found no row. *)
Definition scan_first (ty : ElemTy) (rows : list (list Cell))
    : error + GoVal :=
  match rows with
  | [] => inl (errors_New "sql: Rows are closed")
  | row :: _ => Scan1 ty row
  end.

(** [for rows.Next() { rows.Scan(&x) }] with the [x] declared before
    the loop. *)
Fixpoint scan_last (ty : ElemTy) (rows : list (list Cell)) (x : GoVal)
    : error + GoVal :=
  match rows with
  | [] => inr x
  | row :: rows =>
      match Scan1 ty row with
      | inl e => inl e
      | inr x => scan_last ty rows x
      end
  end.

(** [for rows.Next() { rows.Scan(&x); slice = append(slice, x) }]. *)
Fixpoint scan_slice (ty : ElemTy) (rows : list (list Cell))
    (slice : list GoVal) : error + list GoVal :=
  match rows with
  | [] => inr slice
  | row :: rows =>
      match Scan1 ty row with
      | inl e => inl e
      | inr x => scan_slice ty rows (slice ++ [x])
      end
  end.

(** The loop of the 2D shapes: [Columns()] is asked again for every
    row. *)
Fixpoint scan_slice2 (ty : ElemTy) (columns : error + list string)
    (rows : list (list Cell)) (slice : list (list GoVal))
    : error + list (list GoVal) :=
  match rows with
  | [] => inr slice
  | row :: rows =>
      match columns with
      | inl e => inl e
      | inr cols =>
          match Scan (convert_nullable ty) (length cols) row with
          | inl e => inl e
          | inr out => scan_slice2 ty columns rows (slice ++ [out])
          end
      end
  end.

(** [for i, column := range columns { m[column] = values[i] }]. *)
Definition assign_columns (columns : list string) (values : list GoVal)
    (m : gmap string GoVal) : gmap string GoVal :=
  fold_left (fun m kv => <[kv.1 := kv.2]> m) (zip columns values) m.

(** The row loop of the map shapes; the map is updated in place, so an
    error leaves the entries of the rows before it. *)
Fixpoint scan_map (ty : ElemTy) (columns : list string)
    (rows : list (list Cell)) (m : gmap string GoVal)
    : option error * gmap string GoVal :=
  match rows with
  | [] => (None, m)
  | row :: rows =>
      match Scan (convert ty) (length columns) row with
      | inl e => (Some e, m)
      | inr values => scan_map ty columns rows (assign_columns columns values m)
      end
  end.

(** The row loop of the slice-of-maps shapes. *)
Fixpoint scan_slice_map (ty : ElemTy) (columns : list string)
    (rows : list (list Cell)) (ms : list (gmap string GoVal))
    : option error * list (gmap string GoVal) :=
  match rows with
  | [] => (None, ms)
  | row :: rows =>
      match Scan (convert ty) (length columns) row with
      | inl e => (Some e, ms)
      | inr values =>
          scan_slice_map ty columns rows
            (ms ++ [assign_columns columns values ∅])
      end
  end.

(** The message of a failed [rows.Columns()] in the map shapes; only
    the [bool] and [int] maps carry the driver's tag. *)
Definition columns_error (ty : ElemTy) (shape : string) (e : error) : error :=
  errors_New
    ((match ty with TBool | TInt => "gorm driver: " | _ => EmptyString end)
     +:+ "getting columns from result T=" +:+ shape +:+ ty_name ty
     +:+ " rows: " +:+ Error e).

(** The type switch of [Raw] on the rows of the query. *)
Definition Raw_dispatch (db : Conn) (query : string) (args : list Value)
    (rows : sql_Rows) (result : RawDest) : M (option error * RawDest) :=
  match result with
  | DScalar SInt _ =>
      match scan_last TInt (data rows) (zero_value TInt) with
      | inl e => ret (Some e, result)
      | inr x => ret (None, DScalar SInt x)
      end
  | DScalar ty _ =>
      match scan_first (elem ty) (data rows) with
      | inl e => ret (Some e, result)
      | inr x => ret (None, DScalar ty x)
      end
  | DSlice ty _ =>
      match scan_slice (elem ty) (data rows) [] with
      | inl e => ret (Some e, result)
      | inr slice => ret (None, DSlice ty (Some slice))
      end
  | DSlice2 ty _ =>
      match scan_slice2 (elem ty) (Columns rows) (data rows) [] with
      | inl e => ret (Some e, result)
      | inr slice => ret (None, DSlice2 ty (Some slice))
      end
  | DMap ty m =>
      let m := default ∅ m in
      match Columns rows with
      | inl e => ret (Some (columns_error ty "*map[string]" e), DMap ty (Some m))
      | inr columns =>
          let r := scan_map ty columns (data rows) m in
          ret (r.1, DMap ty (Some r.2))
      end
  | DSliceMap ty ms =>
      let ms := default [] ms in
      match Columns rows with
      | inl e =>
          ret (Some (errors_New
                 ("getting columns from result T=*[]map[string]"
                  +:+ ty_name ty +:+ " rows: " +:+ Error e)),
               DSliceMap ty (Some ms))
      | inr columns =>
          let r := scan_slice_map ty columns (data rows) ms in
          ret (r.1, DSliceMap ty (Some r.2))
      end
  | DOther v =>
      r <- ask (fun h => gorm_Scan bk h db query args v)
               (EvScan db query args v) ;;
      ret (r.1, DOther r.2)
  end.

Definition Raw (result : RawDest) (query : string) (args : list Value)
    : M (option error * RawDest) :=
  r <- withDb (fun db (result : RawDest) =>
         res <- call db (db_Raw query args) ;;
         match gorm.Error res with
         | Some e => ret (Some e, result)
         | None =>
             rows <- ask (fun h => gorm_Rows bk h db query args)
                         (EvRows db query args) ;;
             match rows with
             | inl e => ret (Some e, result)
             | inr rows =>
                 r <- Raw_dispatch db query args rows result ;;
                 log_event (EvRowsClose db) ;;
                 ret r
             end
         end) result ;;
  match r.1 with
  | Some err => ret (Some (Errorf_s "gorm driver: raw- " err), r.2)
  | None => ret (None, r.2)
  end.

End Driver.

(** ** Retrying *)

Definition FdbErrNotCommitted : string := "1020 - not_committed".
Definition FdbErrPastVersion : string := "1007 - past_version".
Definition FdbErrOnlineDdlInProgress : string := "Online DDL in progress for".

Definition IsRetriableDbError (err : option error) : bool :=
  match err with
  | Some e =>
      let str := Error e in
      if Contains str FdbErrNotCommitted
         || Contains str FdbErrPastVersion
         || Contains str FdbErrOnlineDdlInProgress
      then true
      else false
  | None => false
  end.

(** What a run of [DbFnWithRetry] leaves behind: the [*gorm.DB] it
    returns, how often [fn] was called, and the nanoseconds of each
    [time.Sleep]. *)
Record Run : Type := {
  returned : gorm.DB;
  calls : nat;
  sleeps : list Z
}.

Definition set_Error (res : gorm.DB) (err : error) : gorm.DB :=
  {| gorm.Error := Some err; gorm.RowsAffected := gorm.RowsAffected res |}.

(** [&gorm.DB{Error: err}]. *)
Definition only_Error (err : error) : gorm.DB :=
  {| gorm.Error := Some err; gorm.RowsAffected := 0 |}.

(** [time.Duration(attemptNumber*10) * time.Millisecond]. *)
Definition backoff (attemptNumber : Z) : Z :=
  int_mul (int_mul attemptNumber 10) 1000000.

(** The [for] loop of [DbFnWithRetry].  [fn n] is what the [n]-th call
    of the closure returns ([None] for a nil pointer); the loop state is
    [attemptNumber] and [res0]; [fuel] bounds the number of turns, and
    [None] is a loop still running when it is spent. *)
Fixpoint DbFnWithRetry_loop (FdbRetryLimit : Z) (fn : nat -> option gorm.DB)
    (fuel : nat) (attemptNumber : Z) (res0 : option gorm.DB)
    (calls : nat) (sleeps : list Z) : option Run :=
  match fuel with
  | O => None
  | S fuel =>
      if (0 <? FdbRetryLimit) && (FdbRetryLimit <? attemptNumber) then
        match res0 with
        | None =>
            Some {| returned := only_Error (errors_New
                      ("oops, res0 is nil; is the retry limit > 0? If so, that's not allowed; FdbRetryLimit="
                       +:+ fmt_int FdbRetryLimit));
                    calls := calls; sleeps := sleeps |}
        | Some res =>
            Some {| returned := set_Error res (errors_New
                      ("max allowed retries exceeded "
                       +:+ fmt_int attemptNumber +:+ "/"
                       +:+ fmt_int FdbRetryLimit +:+ ": "
                       +:+ fmt_error (gorm.Error res)));
                    calls := calls; sleeps := sleeps |}
        end
      else
        let res0 := fn calls in
        let calls := S calls in
        match res0 with
        | Some res =>
            if not_nil (gorm.Error res) && IsRetriableDbError (gorm.Error res)
            then
              let attemptNumber := int_add attemptNumber 1 in
              DbFnWithRetry_loop FdbRetryLimit fn fuel attemptNumber res0
                calls (sleeps ++ [backoff attemptNumber])
            else Some {| returned := res; calls := calls; sleeps := sleeps |}
        | None =>
            Some {| returned := only_Error (errors_New
                      ("oops, res0 is nil; is your fn returning a nil *gorm.DB? If so, that's not allowed; FdbRetryLimit="
                       +:+ fmt_int FdbRetryLimit));
                    calls := calls; sleeps := sleeps |}
        end
  end.

Definition DbFnWithRetry (FdbRetryLimit : Z) (fn : nat -> option gorm.DB)
    (fuel : nat) : option Run :=
  DbFnWithRetry_loop FdbRetryLimit fn fuel 0 None 0 [].

End repository.

(* ================================================================== *)
(** * Vocabulary of the specification *)

Import errorlib.
Import repository.

(** The messages of the non-nil elements, in order. *)
Definition messages (errs : list (option error)) : list string :=
  omap (fun e => Error <$> e) errs.

(** The driver after its ring has moved one position on. *)
Definition advance (d : GormRepositoryDriver) : GormRepositoryDriver :=
  {| driverName := driverName d;
     connectionStrings := ring.Next (connectionStrings d);
     currentDb := currentDb d |}.

(** The driver holding the live connection [c]. *)
Definition connected (d : GormRepositoryDriver) (c : Conn)
    : GormRepositoryDriver :=
  {| driverName := driverName d;
     connectionStrings := connectionStrings d;
     currentDb := Some c |}.

(** The descriptors handed to [gorm.Open], in the order of the calls. *)
Definition opened (h : list Event) : list string :=
  omap (fun ev => match ev with
                  | EvOpen _ cs _ => Some cs
                  | _ => None
                  end) h.

(** [k] acquires in a row, each one after the connection was dropped. *)
Fixpoint reacquire (bk : Backend) (k : nat) : M unit :=
  match k with
  | O => ret tt
  | S k => reset ;; _ <- db bk ;; reacquire bk k
  end.

(** The text of [e] carries one of the three markers of a transient
    backend condition. *)
Definition transient (e : error) : Prop :=
  exists marker a b,
    marker ∈ [FdbErrNotCommitted; FdbErrPastVersion; FdbErrOnlineDdlInProgress]
    /\ Error e = a +:+ marker +:+ b.


(* ================================================================== *)
(** * Sample backends and drivers *)

Module Samples.

(** A small [convertAssign]: each driver value goes to the Go type of
    the same kind. *)
Definition conv (ty : ElemTy) (c : Cell) : error + GoVal :=
  match ty, c with
  | TBool, CBool b => inr (GBool b)
  | TInt, CInt64 z => inr (GInt z)
  | TInt64, CInt64 z => inr (GInt64 z)
  | TString, CString s => inr (GString s)
  | TString, CBytes s => inr (GString s)
  | TBytes, CBytes s => inr (GBytes (Some s))
  | TIface, c => inr (GIface c)
  | _, _ => inl (errors_New "sql: Scan error: unsupported conversion")
  end.

(** A database where every call succeeds and touches one row, and every
    query answers with [rows]. *)
Definition answering (rows : sql_Rows) (f : Call -> gorm.DB) : Backend :=
  {| gorm_Open := fun _ _ _ => None;
     sql_Ping := fun _ _ => None;
     gorm_call := fun _ _ c => f c;
     gorm_Rows := fun _ _ _ _ => inr rows;
     gorm_Scan := fun _ _ _ _ v => (None, v);
     convertAssign := conv |}.

Definition ok : gorm.DB := {| gorm.Error := None; gorm.RowsAffected := 1 |}.

Definition failing (msg : string) : gorm.DB :=
  {| gorm.Error := Some (errors_New msg); gorm.RowsAffected := 0 |}.

Definition no_rows : sql_Rows := {| Columns := inr ["id"]; data := [] |}.

Definition quiet : Backend := answering no_rows (fun _ => ok).

(** Every call on the handle is refused at the TCP level. *)
Definition refusing : Backend :=
  answering no_rows
    (fun _ => failing "dial tcp 10.0.0.1:5432: connection refused").

(** No host answers. *)
Definition unreachable : Backend :=
  {| gorm_Open := fun _ _ _ =>
       Some (errors_New "dial tcp 10.0.0.1:5432: connection refused");
     sql_Ping := fun _ _ => None;
     gorm_call := fun _ _ _ => ok;
     gorm_Rows := fun _ _ _ _ => inr no_rows;
     gorm_Scan := fun _ _ _ _ v => (None, v);
     convertAssign := conv |}.

(** The driver that [NewGormRepositoryDriver] makes for two hosts. *)
Definition two_hosts : GormRepositoryDriver :=
  {| driverName := "postgres";
     connectionStrings :=
       {| ring.items := [Some "host=a"; Some "host=b"]; ring.pos := 0 |};
     currentDb := None |}.

Definition fresh : State := {| driver := two_hosts; history := [] |}.

Definition live : State :=
  {| driver := connected two_hosts (Handle "postgres" "host=a");
     history := [] |}.

Definition record : Value := VPtr (VStruct "MyDatum" [VString "Iggy"]).

(** [GetOrCreate] finds nothing, and the create then hits a duplicate. *)
Definition not_found_then_duplicate (c : Call) : gorm.DB :=
  match c with
  | db_Where_First _ =>
      {| gorm.Error := Some ErrRecordNotFound; gorm.RowsAffected := 0 |}
  | db_Create _ => failing "pq: duplicate key value"
  | _ => ok
  end.

(** An update that touches two rows. *)
Definition two_rows (c : Call) : gorm.DB :=
  match c with
  | db_UpdateColumns _ _ => {| gorm.Error := None; gorm.RowsAffected := 2 |}
  | _ => ok
  end.

(** A unit of work that never gets its commit through. *)
Definition always_not_committed (_ : nat) : option gorm.DB :=
  Some (failing "FoundationDB commit aborted: 1020 - not_committed").

(** Result sets. *)
Definition three_ids : sql_Rows :=
  {| Columns := inr ["id"];
     data := [[CInt64 1]; [CInt64 2]; [CInt64 3]] |}.

Definition first_datum : sql_Rows :=
  {| Columns := inr ["id"; "name"; "home_planet"];
     data := [[CInt64 1; CString "Name0"; CString "Zurg"]] |}.

Definition select_first_datum : string :=
  "SELECT id, name, home_planet FROM my_datum ORDER BY id ASC LIMIT 1".

Definition one_id : sql_Rows :=
  {| Columns := inr ["id"]; data := [[CInt64 7]] |}.

End Samples.

(* ================================================================== *)
(** * More of the package: the not-found test and the retrying [Exec] *)

(** [gorm.ErrRecordNotFound.Error()], computed once at start-up. *)
Definition gormNotFoundErrorString : string := Error ErrRecordNotFound.

Definition IsRecordNotFoundError (err : option error) : bool :=
  match err with
  | None => false
  | Some e => HasSuffix (Error e) gormNotFoundErrorString
  end.

(** The [for] loop of [DbExecWithRetry].  [Exec n] is what the [n]-th
    [db.Exec(sql, values...)] returns (never a nil pointer); the loop
    state is [attemptNumber]; [fuel] bounds the number of turns, and
    [None] is a loop still running when it is spent. *)
Fixpoint DbExecWithRetry_loop (Exec : nat -> gorm.DB) (fuel : nat)
    (attemptNumber : Z) (calls : nat) (sleeps : list Z) : option Run :=
  match fuel with
  | O => None
  | S fuel =>
      let res0 := Exec calls in
      let calls := S calls in
      if not_nil (gorm.Error res0) && IsRetriableDbError (gorm.Error res0)
      then
        let attemptNumber := int_add attemptNumber 1 in
        DbExecWithRetry_loop Exec fuel attemptNumber calls
          (sleeps ++ [backoff attemptNumber])
      else Some {| returned := res0; calls := calls; sleeps := sleeps |}
  end.

Definition DbExecWithRetry (Exec : nat -> gorm.DB) (fuel : nat)
    : option Run :=
  DbExecWithRetry_loop Exec fuel 0 0 [].

(** ** Vocabulary for the properties of the whole driver *)

(** The ring holds a string in every element and its cursor is on one
    of them, as after [NewGormRepositoryDriver]. *)
Definition ring_ok (r : ring.Ring) : Prop :=
  exists css, ring.items r = Some <$> css
              /\ (ring.pos r < length css)%nat.




(** An answer that ends a retry loop: no error, or one that carries no
    transient marker. *)
Definition final (res : gorm.DB) : Prop :=
  IsRetriableDbError (gorm.Error res) = false.

(** The sleeps of [n] retries in a row: 10 ms, 20 ms, ... *)
Definition backoffs (n : nat) : list Z :=
  map (fun i => backoff (Z.of_nat i)) (seq 1 n).

(** The calls of a history, without their answers' row counts: used to
    say which gorm calls a run issued, in order. *)
Definition gorm_calls (h : list Event) : list (Conn * Call) :=
  omap (fun ev => match ev with
                  | EvCall db c _ => Some (db, c)
                  | _ => None
                  end) h.

(** The gorm calls of a transaction on the handle [c] that issued [ops]
    and was committed, and of one that issued [ops] and was rolled
    back. *)
Definition committed (c : Conn) (ops : list Call) : list (Conn * Call) :=
  (c, db_Begin) :: (pair (Tx c) <$> ops) ++ [(Tx c, db_Commit)].

Definition rolled_back (c : Conn) (ops : list Call) : list (Conn * Call) :=
  (c, db_Begin) :: (pair (Tx c) <$> ops) ++ [(Tx c, db_Rollback)].

(** The total length of a list of strings. *)
Definition total_length (ms : list string) : nat :=
  foldr (fun m n => (String.length m + n)%nat) 0%nat ms.

(** The events of setting up a connection. *)
Definition connecting (ev : Event) : Prop :=
  match ev with
  | EvOpen _ _ _ | EvPing _ _ => True
  | _ => False
  end.

(** The handles on which a history obtained a result set, and those on
    which it closed one, in order. *)
Definition rows_opened (h : list Event) : list Conn :=
  omap (fun ev => match ev with
                  | EvRows db _ _ (inr _) => Some db
                  | _ => None
                  end) h.

Definition rows_closed (h : list Event) : list Conn :=
  omap (fun ev => match ev with
                  | EvRowsClose db => Some db
                  | _ => None
                  end) h.

(** The destinations that [Raw] assigns once, after the loop over the
    rows: the scalar, slice and 2D shapes. *)
Definition assigned_at_end (result : RawDest) : bool :=
  match result with
  | DScalar _ _ | DSlice _ _ | DSlice2 _ _ => true
  | _ => false
  end.

(** What a 2D shape stores for a cell: the zero value for NULL, else
    what the conversion of the cell gives. *)
Definition stored_2d (bk : Backend) (ty : ScalarTy) (cell : Cell) (v : GoVal)
    : Prop :=
  match cell with
  | CNull => v = zero_value (elem ty)
  | _ => convertAssign bk (elem ty) cell = inr v
  end.

(** Sample answers for the properties below. *)
Module Cases.

(** Two transient failures, then success. *)
Definition third_time_lucky (n : nat) : option gorm.DB :=
  if (n <? 2)%nat
  then Some (Samples.failing "commit aborted: 1020 - not_committed")
  else Some Samples.ok.

Definition third_exec_lucky (n : nat) : gorm.DB :=
  if (n <? 2)%nat
  then Samples.failing "commit aborted: 1007 - past_version"
  else Samples.ok.

Definition always_past_version (_ : nat) : gorm.DB :=
  Samples.failing "commit aborted: 1007 - past_version".

(** The second save of a transaction fails. *)
Definition second_record : Value := VPtr (VStruct "MyDatum" [VString "i2"]).

Definition second_save_fails (c : Call) : gorm.DB :=
  match c with
  | db_Save (VPtr (VStruct _ [VString "i2"])) =>
      Samples.failing "pq: duplicate key value"
  | _ => Samples.ok
  end.

Definition two_columns : sql_Rows :=
  {| Columns := inr ["name"; "home_planet"];
     data := [[CString "Name0"; CNull]; [CString "Name1"; CString "Zurg"]] |}.

End Cases.

(* ================================================================== *)
(** * Proof tools *)

(** Reduction of a monadic computation applied to a state. *)
Ltac run_step :=
  unfold bind, ret, panic, get_driver, put_driver, ask, log_event in *;
  cbn beta iota in *.

(** Symbolic execution of a run recorded in hypothesis [H]: case on the
    first answer that the rest of the run depends on. *)
Ltac exec_in H :=
  match type of H with
  | context [match ?x with _ => _ end] =>
      lazymatch x with
      | context [match _ with _ => _ end] => fail
      | _ => destruct x eqn:?; cbn in H
      end
  end.

Arguments Merge : simpl never.
Arguments Raw_dispatch : simpl never.

(* ================================================================== *)
(** * Facts about machine integers and strings *)

Lemma wrap_in_range z : in_range z -> wrap z = z.
Proof.
  unfold in_range, wrap, min_int, max_int, int_bits. intros Hz.
  rewrite Z.mod_small; lia.
Qed.

Lemma int_add_small a b : in_range (a + b) -> int_add a b = a + b.
Proof. apply wrap_in_range. Qed.

Lemma append_cons c (a b : string) : String c a +:+ b = String c (a +:+ b).
Proof. reflexivity. Qed.

Lemma append_empty_l (a : string) : EmptyString +:+ a = a.
Proof. reflexivity. Qed.

Lemma append_assoc (a b c : string) : (a +:+ b) +:+ c = a +:+ b +:+ c.
Proof. induction a as [|x a IH]; [done | by rewrite !append_cons, IH]. Qed.

Lemma length_append (a b : string) :
  String.length (a +:+ b) = (String.length a + String.length b)%nat.
Proof. induction a as [|c a IH]; simpl; [done | by rewrite IH]. Qed.

Lemma substring_0_length p : substring 0 (String.length p) p = p.
Proof. induction p as [|c p IHp]; simpl; [done | by rewrite IHp]. Qed.

Lemma substring_0_append p t :
  substring 0 (String.length p) (p +:+ t) = p.
Proof.
  induction p as [|c p IH]; simpl.
  - by destruct t.
  - by rewrite IH.
Qed.

Lemma substring_skip_append t p :
  substring (String.length t) (String.length p) (t +:+ p) = p.
Proof.
  induction t as [|c t IH]; [exact (substring_0_length p) | done].
Qed.

Lemma substring_0_split n s :
  (n <= String.length s)%nat ->
  exists t, s = substring 0 n s +:+ t.
Proof.
  revert s. induction n as [|n IH]; intros s Hn.
  - exists s. by destruct s.
  - destruct s as [|c s]; simpl in *; [lia |].
    destruct (IH s) as [t Ht]; [lia |].
    exists t. by rewrite append_cons, <- Ht.
Qed.

Lemma substring_tail_split n m s :
  (n + m = String.length s)%nat ->
  exists t, s = t +:+ substring n m s.
Proof.
  revert s. induction n as [|n IH]; intros s Hn.
  - exists EmptyString. simpl in *. subst m.
    by rewrite append_empty_l, substring_0_length.
  - destruct s as [|c s]; simpl in *; [lia |].
    destruct (IH s) as [t Ht]; [lia |].
    exists (String c t). by rewrite append_cons, <- Ht.
Qed.

Lemma HasPrefix_spec s p :
  HasPrefix s p = true <-> exists t, s = p +:+ t.
Proof.
  unfold HasPrefix. rewrite andb_true_iff, Nat.leb_le, String.eqb_eq.
  split.
  - intros [Hlen Heq].
    destruct (substring_0_split (String.length p) s Hlen) as [t Ht].
    exists t. by rewrite Heq in Ht.
  - intros [t ->]. split.
    + rewrite length_append. lia.
    + apply substring_0_append.
Qed.

Lemma HasSuffix_spec s x :
  HasSuffix s x = true <-> exists t, s = t +:+ x.
Proof.
  unfold HasSuffix. rewrite andb_true_iff, Nat.leb_le, String.eqb_eq.
  split.
  - intros [Hlen Heq].
    destruct (substring_tail_split
                (String.length s - String.length x) (String.length x) s)
      as [t Ht]; [lia |].
    exists t. by rewrite Heq in Ht.
  - intros [t ->]. split.
    + rewrite length_append. lia.
    + rewrite length_append.
      replace (String.length t + String.length x - String.length x)%nat
        with (String.length t) by lia.
      apply substring_skip_append.
Qed.

Lemma Contains_spec s x :
  Contains s x = true <-> exists a b, s = a +:+ x +:+ b.
Proof.
  induction s as [|c s IH]; simpl.
  - rewrite orb_false_r, HasPrefix_spec. split.
    + intros [t Ht]. by exists EmptyString, t.
    + intros [a [b Hab]]. destruct a; [by exists b | done].
  - rewrite orb_true_iff, HasPrefix_spec, IH. split.
    + intros [[t Ht] | [a [b Hab]]].
      * by exists EmptyString, t.
      * exists (String c a), b. by rewrite append_cons, <- Hab.
    + intros [a [b Hab]]. destruct a as [|c' a].
      * left. by exists b.
      * right. exists a, b. rewrite append_cons in Hab. congruence.
Qed.

(* ================================================================== *)
(** * [errorlib.Merge] *)

Lemma concat_snoc sep (l : list string) x :
  String.concat sep (l ++ [x]) =
  match l with
  | [] => x
  | _ => String.concat sep l +:+ sep +:+ x
  end.
Proof.
  induction l as [|a [|b l] IH]; [done | done |].
  change (a +:+ sep +:+ String.concat sep ((b :: l) ++ [x]) =
          (a +:+ sep +:+ String.concat sep (b :: l)) +:+ sep +:+ x).
  by rewrite IH, !append_assoc.
Qed.

Lemma messages_all_nil errs :
  (forall e, e ∈ errs -> e = None) -> messages errs = [].
Proof.
  induction errs as [|e errs IH]; intros Hall; [done |].
  rewrite (Hall e) by left.
  apply IH. intros e' He'. apply Hall. by right.
Qed.

(** The loop of [Merge] started after the messages [ms0] have been
    written: it joins the remaining messages onto them and counts. *)
Lemma fold_Merge_step errs : forall ms0,
  Z.of_nat (length ms0 + length errs) <= max_int ->
  fold_left Merge_step errs
    (String.concat ", " ms0, Z.of_nat (length ms0)) =
  (String.concat ", " (ms0 ++ messages errs),
   Z.of_nat (length (ms0 ++ messages errs))).
Proof.
  induction errs as [|[e|] errs IH]; intros ms0 Hlen.
  - by rewrite app_nil_r.
  - change (messages (Some e :: errs)) with (Error e :: messages errs).
    rewrite (cons_middle (Error e)), app_assoc.
    simpl in Hlen.
    rewrite <- IH by (rewrite length_app; simpl; lia).
    simpl. f_equal. unfold Merge_step. simpl. f_equal.
    + rewrite concat_snoc.
      destruct ms0 as [|m ms0]; [done |].
      replace (0 <? Z.of_nat (length (m :: ms0))) with true
        by (symmetry; apply Z.ltb_lt; simpl; lia).
      by rewrite append_assoc.
    + rewrite int_add_small.
      * rewrite length_app. simpl. lia.
      * unfold in_range, min_int, max_int, int_bits in *. lia.
  - change (messages (None :: errs)) with (messages errs).
    simpl. apply IH. simpl in Hlen. lia.
Qed.

(** C3. [Merge] of a slice yields no error when the slice is empty or
    holds nil only; the message of the single non-nil element when there
    is exactly one; and for N >= 2 non-nil elements the count N, the text
    " errors: " and the non-nil messages in order joined by ", ".  (The
    length of a Go slice is an [int].) *)
Theorem Merge_spec errs :
  Z.of_nat (length errs) <= max_int ->
  ((errs = [] \/ forall e, e ∈ errs -> e = None) -> Merge errs = None)
  /\ (forall m, messages errs = [m] ->
        exists e, Merge errs = Some e /\ Error e = m)
  /\ ((2 <= length (messages errs))%nat ->
        exists e, Merge errs = Some e
          /\ Error e = fmt_int (Z.of_nat (length (messages errs)))
                       +:+ " errors: "
                       +:+ String.concat ", " (messages errs)).
Proof.
  intros Hlen.
  destruct errs as [|e1 [|e2 errs]].
  - simpl. split; [done | split; [done | lia]].
  - destruct e1 as [e1|]; simpl.
    + split; [| split].
      * intros [? | Hall]; [done |]. by apply (Hall (Some e1)); left.
      * intros m [= <-]. by exists e1.
      * change (messages [Some e1]) with [Error e1]. simpl. lia.
    + split; [done | split; [done |]].
      change (messages [None]) with (@nil string). simpl. lia.
  - set (l := e1 :: e2 :: errs) in *.
    assert (HM : Merge l =
      let st := fold_left Merge_step l (EmptyString, 0) in
      if st.2 =? 0 then None
      else if st.2 =? 1 then Some (errors_New st.1)
      else Some (errors_New (fmt_int st.2 +:+ " errors: " +:+ st.1)))
      by done.
    rewrite (fold_Merge_step l [] Hlen
               : fold_left Merge_step l (EmptyString, 0) = _) in HM.
    rewrite app_nil_l in HM. cbv zeta in HM. cbn [fst snd] in HM.
    split; [| split].
    + intros [? | Hall]; [done |].
      rewrite HM, (messages_all_nil l Hall). done.
    + intros m Hm. rewrite HM, Hm. simpl. by eexists.
    + intros Hge. rewrite HM.
      destruct (Z.eqb_spec (Z.of_nat (length (messages l))) 0); [lia |].
      destruct (Z.eqb_spec (Z.of_nat (length (messages l))) 1); [lia |].
      by eexists.
Qed.

(** The cases of the package's tests. *)
Example Test_MergeEmpty : Merge [] = None.
Proof. reflexivity. Qed.

Example Test_MergeSingle :
  Merge [Some (errors_New "error: this is a test")] =
  Some (errors_New "error: this is a test").
Proof. reflexivity. Qed.

Example Test_MergeSeveral :
  Merge [Some (errors_New "error: this is a test");
         Some (errors_New "error: this is still a test")] =
  Some (errors_New
          "2 errors: error: this is a test, error: this is still a test").
Proof. reflexivity. Qed.

Example Test_MergeMidNil :
  Merge [None; None; None] = None
  /\ Merge [Some (errors_New "first error"); Some (errors_New "first error");
            None; Some (errors_New "fourth error");
            Some (errors_New "fifth error")] =
     Some (errors_New
             "4 errors: first error, first error, fourth error, fifth error")
  /\ Merge [None; None; None; None; Some (errors_New "third error");
            None; None; None; None] =
     Some (errors_New "third error").
Proof. by vm_compute. Qed.

Lemma Merge_spec_witness :
  Merge [Some (errors_New "a"); None; Some (errors_New "b")] <> None
  /\ exists e, Merge [Some (errors_New "a"); None; Some (errors_New "b")]
               = Some e
       /\ Error e = "2 errors: a, b".
Proof.
  pose proof (Merge_spec [Some (errors_New "a"); None; Some (errors_New "b")])
    as H.
  assert (Hlen : Z.of_nat (length
            [Some (errors_New "a"); None; Some (errors_New "b")]) <= max_int)
    by (vm_compute; discriminate).
  destruct (H Hlen) as [_ [_ H2]].
  assert (H3 : (2 <= length (messages
            [Some (errors_New "a"); None; Some (errors_New "b")]))%nat)
    by (vm_compute; lia).
  destruct (H2 H3) as [e [He1 He2]].
  split; [by rewrite He1 | exists e; split; [done | exact He2]].
Defined.

(* ================================================================== *)
(** * The connection rotator *)

Section Rotator.

Variable bk : Backend.

(** [db()] with a live connection hands it out and touches nothing. *)
Lemma db_live s c :
  currentDb (driver s) = Some c -> db bk s = Ret (inr c) s.
Proof.
  intros Hc. unfold db. run_step. rewrite Hc. by destruct s.
Qed.

(** [db()] without a live connection: one [gorm.Open] on the current
    descriptor, a ping when that went well, and the ring moved on. *)
Lemma db_connect s cs :
  currentDb (driver s) = None ->
  ring.Value_string (connectionStrings (driver s)) = Some cs ->
  let d := driver s in
  let h := history s in
  let c := Handle (driverName d) cs in
  let e1 := gorm_Open bk h (driverName d) cs in
  let h1 := h ++ [EvOpen (driverName d) cs e1] in
  let e2 := sql_Ping bk h1 c in
  db bk s =
  match e1 with
  | Some e => Ret (inl e) {| driver := advance d; history := h1 |}
  | None =>
      match e2 with
      | Some e =>
          Ret (inl e) {| driver := advance d; history := h1 ++ [EvPing c e2] |}
      | None =>
          Ret (inr c) {| driver := connected (advance d) c;
                         history := h1 ++ [EvPing c e2] |}
      end
  end.
Proof.
  intros Hc Hv. cbv zeta. unfold db, DbConnect. run_step.
  rewrite Hc, Hv. cbn.
  unfold connected, advance. cbn. rewrite Hc.
  destruct (gorm_Open bk (history s) (driverName (driver s)) cs) eqn:E1;
    cbn; [done |].
  by destruct (sql_Ping bk _ _) eqn:E2.
Qed.

(** A failed acquire leaves the driver without a live connection. *)
Lemma db_failed s e s' :
  db bk s = Ret (inl e) s' -> currentDb (driver s') = None.
Proof.
  destruct (currentDb (driver s)) as [c|] eqn:Hc.
  - by rewrite (db_live s c Hc).
  - destruct (ring.Value_string (connectionStrings (driver s))) as [cs|] eqn:Hv.
    + rewrite (db_connect s cs Hc Hv). cbv zeta.
      destruct (gorm_Open _ _ _ _); [intros [= _ <-]; exact Hc |].
      destruct (sql_Ping _ _ _); [intros [= _ <-]; exact Hc | done].
    + unfold db. run_step. by rewrite Hc, Hv.
Qed.

End Rotator.

(** C1. An error is classified as connection-level exactly when its
    text starts with "dial tcp " and ends with ": connection refused";
    the refused dial to 10.0.0.1:5432 is, the missing role is not; and
    whenever [withDb] returns an error so classified, the driver has no
    live connection left. *)
Theorem connection_error_invalidates :
  (forall e, isConnectionError e = true <->
     (exists t, Error e = "dial tcp " +:+ t)
     /\ (exists t, Error e = t +:+ ": connection refused"))
  /\ isConnectionError
       (errors_New "dial tcp 10.0.0.1:5432: connection refused") = true
  /\ isConnectionError
       (errors_New ("role " +:+ dquote +:+ "x" +:+ dquote
                    +:+ " does not exist")) = false
  /\ (forall bk E (fn : Conn -> E -> M (option error * E)) env s e env' s',
        withDb bk fn env s = Ret (Some e, env') s' ->
        isConnectionError e = true ->
        currentDb (driver s') = None).
Proof.
  split; [| split; [| split]].
  - intros e. unfold isConnectionError.
    rewrite <- HasPrefix_spec, <- HasSuffix_spec, <- andb_true_iff.
    by destruct (_ && _).
  - reflexivity.
  - reflexivity.
  - intros bk E fn env s e env' s' Hrun Hconn.
    unfold withDb in Hrun. run_step.
    destruct (db bk s) as [[err | c] s1 |] eqn:Hdb; [| | done].
    + injection Hrun as -> _ ->. by apply (db_failed bk s e).
    + destruct (fn c env s1) as [[[err |] env1] s2 |]; cbn in Hrun;
        [| done | done].
      destruct (isConnectionError err) eqn:Hc; run_step.
      * unfold reset in Hrun. run_step. by injection Hrun as _ _ <-.
      * injection Hrun as -> _ _. congruence.
Qed.

Lemma connection_error_invalidates_witness :
  exists s',
    withDb Samples.refusing
      (fun db (_ : unit) =>
         res <- call Samples.refusing db (db_Save Samples.record) ;;
         ret (gorm.Error res, tt)) tt Samples.live
    = Ret (Some (errors_New "dial tcp 10.0.0.1:5432: connection refused"), tt)
          s'
    /\ currentDb (driver s') = None.
Proof.
  eexists. split; [reflexivity |].
  destruct connection_error_invalidates as [_ [_ [_ H]]].
  apply (H Samples.refusing unit
           (fun db (_ : unit) =>
              res <- call Samples.refusing db (db_Save Samples.record) ;;
              ret (gorm.Error res, tt))
           tt Samples.live
           (errors_New "dial tcp 10.0.0.1:5432: connection refused") tt);
    reflexivity.
Defined.

(* ================================================================== *)
(** * Multi-record operations and [GetOrCreate] *)

(** C4. [DeleteMultiple] called with one argument whose kind is a slice
    returns the caller-usage error, whatever the slice holds, and leaves
    the driver and the history of backend calls as they were: no
    connection is acquired, nothing is sent, nothing is tried again. *)
Theorem DeleteMultiple_rejects_list bk (v : Value) (s : State) :
  Kind_of v = Slice ->
  DeleteMultiple bk [v] s =
  Ret (Some (errors_New
         "gorm driver: dlm- invalid arguments to DeleteMultiple; did you forget the `...`?"))
      s.
Proof. intros Hk. unfold DeleteMultiple. cbn. by rewrite Hk. Qed.

Lemma DeleteMultiple_rejects_list_witness :
  DeleteMultiple Samples.quiet
    [VSlice [Samples.record; Samples.record]] Samples.fresh =
  Ret (Some (errors_New
         "gorm driver: dlm- invalid arguments to DeleteMultiple; did you forget the `...`?"))
      Samples.fresh.
Proof.
  apply (DeleteMultiple_rejects_list Samples.quiet
           (VSlice [Samples.record; Samples.record]) Samples.fresh).
  reflexivity.
Defined.

(** C10. [SaveMultiple] and [DeleteMultiple] without arguments return
    nil at once: the state after (live connection, rotation cursor,
    history of backend calls) is the state before. *)
Theorem multiple_of_nothing bk (s : State) :
  SaveMultiple bk [] s = Ret None s /\ DeleteMultiple bk [] s = Ret None s.
Proof. by split. Qed.

(** C9. When the acquire succeeds, the lookup of [GetOrCreate] answers
    with [gorm.ErrRecordNotFound] and the create that follows fails with
    [e], [GetOrCreate] returns [created = true] together with [e] under
    the tag "gorm driver: goc- ". *)
Theorem GetOrCreate_created_despite_error bk value s c s1 e :
  let lookup := gorm_call bk (history s1) c (db_Where_First value) in
  let h2 := history s1 ++ [EvCall c (db_Where_First value) lookup] in
  db bk s = Ret (inr c) s1 ->
  gorm.Error lookup = Some ErrRecordNotFound ->
  gorm.Error (gorm_call bk h2 c (db_Create value)) = Some e ->
  exists s',
    GetOrCreate bk value s =
    Ret (true, Some (errors_New ("gorm driver: goc- " +:+ Error e))) s'.
Proof.
  intros lookup h2 Hdb Hlookup Hcreate.
  unfold GetOrCreate, withDb, call. run_step. rewrite Hdb. cbn.
  fold lookup. rewrite Hlookup. cbn. fold h2. rewrite Hcreate. cbn.
  unfold reset. run_step.
  destruct (isConnectionError e); cbn; by eexists.
Qed.

Lemma GetOrCreate_created_despite_error_witness :
  exists s',
    GetOrCreate (Samples.answering Samples.no_rows Samples.not_found_then_duplicate)
      Samples.record Samples.live =
    Ret (true,
         Some (errors_New "gorm driver: goc- pq: duplicate key value")) s'.
Proof.
  apply (GetOrCreate_created_despite_error
           (Samples.answering Samples.no_rows Samples.not_found_then_duplicate)
           Samples.record Samples.live
           (Handle "postgres" "host=a") Samples.live
           (errors_New "pq: duplicate key value"));
    reflexivity.
Defined.

(* ================================================================== *)
(** * Transactions and [UpdateSingle] *)

Lemma int_add_0_1 : int_add 0 1 = 1.
Proof. reflexivity. Qed.

Lemma int_add_1_1 : int_add 1 1 = 2.
Proof. reflexivity. Qed.

(** Merging an error with the error of the rollback never loses it. *)
Lemma Merge_with_rollback e rb : Merge [Some e; rb] <> None.
Proof.
  unfold Merge, Merge_step. cbn [fold_left fst snd].
  change (0 <? 0) with false. cbv iota.
  rewrite int_add_0_1. destruct rb as [e2|]; cbn [fst snd].
  - rewrite int_add_1_1. done.
  - done.
Qed.

Section Transactions.

Variable bk : Backend.

(** An acquire asks for connections only. *)
Lemma db_history s r s1 :
  db bk s = Ret r s1 ->
  exists evs, history s1 = history s ++ evs
    /\ forall c q res, EvCall c q res ∉ evs.
Proof.
  destruct (currentDb (driver s)) as [c|] eqn:Hc.
  - rewrite (db_live bk s c Hc). intros [= ? <-].
    exists []. split; [by rewrite app_nil_r | set_solver].
  - destruct (ring.Value_string (connectionStrings (driver s)))
      as [cs|] eqn:Hv.
    + rewrite (db_connect bk s cs Hc Hv). cbv zeta.
      destruct (gorm_Open _ _ _ _).
      * intros [= ? <-]. eexists. split; [done | set_solver].
      * destruct (sql_Ping _ _ _); intros [= ? <-]; cbn;
          rewrite <- app_assoc; (eexists; split; [done | set_solver]).
    + unfold db. run_step. by rewrite Hc, Hv.
Qed.

(** C7. [UpdateSingle] returns an error whenever the column update
    reports a number of affected rows other than one, and the
    transaction is then rolled back and never committed; when it returns
    nil the update touched exactly one row and the commit went through. *)
Theorem UpdateSingle_exactly_one value values s err s' :
  UpdateSingle bk value values s = Ret err s' ->
  exists evs, history s' = history s ++ evs
    /\ (forall tx res,
          EvCall tx (db_UpdateColumns value values) res ∈ evs ->
          gorm.RowsAffected res <> 1 ->
          err <> None
          /\ (exists rb, last evs = Some (EvCall tx db_Rollback rb))
          /\ forall c res', EvCall c db_Commit res' ∉ evs)
    /\ (err = None ->
          exists tx res committed,
            EvCall tx (db_UpdateColumns value values) res ∈ evs
            /\ gorm.Error res = None
            /\ gorm.RowsAffected res = 1
            /\ last evs = Some (EvCall tx db_Commit committed)
            /\ gorm.Error committed = None).
Proof.
  intros Hrun.
  unfold UpdateSingle, inTransaction, withDb, run_txFuncs, call, reset in Hrun.
  run_step.
  destruct (db bk s) as [[e0 | c] s1 |] eqn:Hdb; [| | done].
  - injection Hrun as <- <-.
    destruct (db_history s _ _ Hdb) as [evs [Hh Hno]].
    exists evs. split; [done |]. split; [| done].
    intros tx res Hin. by apply Hno in Hin.
  - destruct (db_history s _ _ Hdb) as [evs [Hh Hno]].
    cbn in Hrun.
    repeat exec_in Hrun.
    all: try match goal with
             | H : Merge [Some _; _] = None |- _ =>
                 by apply Merge_with_rollback in H
             end.
    all: injection Hrun as <- <-; cbn [history driver]; rewrite <- ?app_assoc;
      eexists (evs ++ _);
      (split; [rewrite (app_assoc (history s)), <- Hh; reflexivity |]).
    all: cbn [app]; split;
      [ intros tx res Hin Hrows;
        rewrite ?elem_of_app, ?elem_of_cons, ?elem_of_nil in Hin;
        destruct_or?; try (by apply Hno in Hin); simplify_eq;
        try match goal with
            | Hb : negb (_ =? 1) = false |- _ =>
                apply negb_false_iff, Z.eqb_eq in Hb; congruence
            end
      | intros Herr; simplify_eq ].
    all: try (split; [done | split];
              [ eexists; by rewrite last_app
              | intros c0 res' Hin;
                rewrite ?elem_of_app, ?elem_of_cons, ?elem_of_nil in Hin;
                destruct_or?; try (by apply Hno in Hin); simplify_eq ]).
    match goal with
    | Hu : gorm.Error (gorm_call _ _ _ (db_UpdateColumns _ _)) = None,
      Hb : negb (_ =? 1) = false,
      Hc : gorm.Error (gorm_call _ _ _ db_Commit) = None |- _ =>
        apply negb_false_iff, Z.eqb_eq in Hb;
        rewrite <- app_assoc in Hc;
        eexists (Tx c), _, _;
        split; [ rewrite elem_of_app, !elem_of_cons; right; right; left;
                 reflexivity |];
        split; [exact Hu |]; split; [exact Hb |];
        split; [by rewrite last_app | exact Hc]
    end.
Qed.

End Transactions.

Lemma UpdateSingle_exactly_one_witness :
  exists err s',
    UpdateSingle (Samples.answering Samples.no_rows Samples.two_rows)
      Samples.record (VStruct "MyDatum" [VString "Venus"]) Samples.live
    = Ret err s'
    /\ err <> None
    /\ last (history s') =
       Some (EvCall (Tx (Handle "postgres" "host=a")) db_Rollback Samples.ok).
Proof.
  eexists _, _. split; [reflexivity |].
  destruct (UpdateSingle_exactly_one
              (Samples.answering Samples.no_rows Samples.two_rows)
              Samples.record (VStruct "MyDatum" [VString "Venus"])
              Samples.live _ _ eq_refl) as [evs [Hh [Hbad _]]].
  cbn in Hh. subst evs.
  destruct (Hbad (Tx (Handle "postgres" "host=a"))
              {| gorm.Error := None; gorm.RowsAffected := 2 |})
    as [Herr [[rb Hlast] _]].
  - apply list_elem_of_In. cbn. tauto.
  - cbn. lia.
  - split; [exact Herr |]. reflexivity.
Defined.

(* ================================================================== *)
(** * Round-robin use of the connection descriptors *)

Lemma opened_app h1 h2 : opened (h1 ++ h2) = opened h1 ++ opened h2.
Proof. apply omap_app. Qed.

(** The loop of [NewGormRepositoryDriver] after the descriptors [p],
    with [q] still to store. *)
Lemma fill_ring q : forall p,
  (0 < length p + length q)%nat ->
  fold_left (fun r connectionString =>
               ring.Next (ring.set_Value r connectionString)) q
    {| ring.items := (Some <$> p) ++ replicate (length q) None;
       ring.pos := (length p mod (length p + length q))%nat |} =
  {| ring.items := Some <$> (p ++ q); ring.pos := 0 |}.
Proof.
  induction q as [|c q IH]; intros p Hn.
  - cbn. rewrite !app_nil_r, Nat.add_0_r, Nat.Div0.mod_same. done.
  - cbn [fold_left length].
    rewrite Nat.mod_small by lia.
    unfold ring.set_Value, ring.Next. cbn [ring.items ring.pos].
    rewrite insert_app_r_alt by (rewrite length_fmap; lia).
    rewrite !length_fmap, Nat.sub_diag.
    cbn [replicate]. change (<[0%nat:=Some c]> (None :: ?t)) with (Some c :: t).
    rewrite length_app, length_fmap. cbn [length].
    rewrite length_replicate.
    specialize (IH (p ++ [c])). rewrite length_app in IH. cbn [length] in IH.
    replace (length p + 1 + length q)%nat with (length p + S (length q))%nat
      in IH by lia.
    replace (length p + 1)%nat with (S (length p)) in IH by lia.
    rewrite fmap_app, <- !app_assoc in IH. cbn in IH.
    apply IH. lia.
Qed.

(** A driver made from a non-empty list starts at its first descriptor,
    without a connection. *)
Lemma NewGormRepositoryDriver_spec name css :
  css <> [] ->
  NewGormRepositoryDriver name css =
  Some {| driverName := name;
          connectionStrings :=
            {| ring.items := Some <$> css; ring.pos := 0 |};
          currentDb := None |}.
Proof.
  intros Hne. unfold NewGormRepositoryDriver.
  pose proof (fill_ring css []) as Hfill. cbn in Hfill.
  rewrite Nat.Div0.mod_0_l in Hfill.
  unfold ring.New. rewrite Hfill by (destruct css; [done | cbn; lia]).
  unfold ring.Value_string. cbn. rewrite list_lookup_fmap.
  by destruct css.
Qed.

Section RoundRobin.

Variable bk : Backend.

(** One acquire without a live connection: exactly one [gorm.Open], on
    the current descriptor, and the ring moved by one. *)
Lemma db_rotates s cs :
  currentDb (driver s) = None ->
  ring.Value_string (connectionStrings (driver s)) = Some cs ->
  exists r s',
    db bk s = Ret r s'
    /\ opened (history s') = opened (history s) ++ [cs]
    /\ driverName (driver s') = driverName (driver s)
    /\ connectionStrings (driver s') = ring.Next (connectionStrings (driver s))
    /\ match r with
       | inl _ => currentDb (driver s') = None
       | inr c => c = Handle (driverName (driver s)) cs
                  /\ currentDb (driver s') = Some c
       end.
Proof.
  intros Hc Hv. rewrite (db_connect bk s cs Hc Hv). cbv zeta.
  destruct (gorm_Open _ _ _ _).
  - eexists _, _. split; [done |]. cbn. by rewrite opened_app.
  - destruct (sql_Ping _ _ _); eexists _, _; (split; [done |]); cbn;
      rewrite !opened_app; cbn; by rewrite app_nil_r.
Qed.

(** [k] re-acquires on a ring at position [j] open the descriptors
    [j], [j+1], ... cyclically. *)
Lemma reacquire_from css k : forall s j,
  css <> [] ->
  connectionStrings (driver s) =
    {| ring.items := Some <$> css; ring.pos := (j mod length css)%nat |} ->
  exists s',
    reacquire bk k s = Ret tt s'
    /\ opened (history s') =
       opened (history s)
       ++ map (fun i => nth ((j + i) mod length css) css EmptyString)
              (seq 0 k).
Proof.
  induction k as [|k IH]; intros s j Hne Hring.
  - exists s. split; [done |]. cbn. by rewrite app_nil_r.
  - assert (Hlt : (j mod length css < length css)%nat)
      by (apply Nat.mod_upper_bound; by destruct css).
    destruct (lookup_lt_is_Some_2 css _ Hlt) as [cs Hcs].
    set (s0 := {| driver := {| driverName := driverName (driver s);
                               connectionStrings := connectionStrings (driver s);
                               currentDb := None |};
                  history := history s |}).
    destruct (db_rotates s0 cs) as [r [s1 [Hdb [Hop [_ [Hnext _]]]]]];
      [done | |].
    { cbn. rewrite Hring. unfold ring.Value_string. cbn.
      by rewrite list_lookup_fmap, Hcs. }
    destruct (IH s1 (S j) Hne) as [s' [Hrun Hop']].
    { rewrite Hnext. cbn. rewrite Hring. unfold ring.Next. cbn.
      rewrite length_fmap. f_equal.
      rewrite <- Nat.add_1_r, Nat.Div0.add_mod_idemp_l. f_equal. lia. }
    exists s'. split.
    + cbn [reacquire]. unfold reset. run_step. fold s0.
      rewrite Hdb. exact Hrun.
    + rewrite Hop', Hop. cbn [seq map history s0].
      rewrite <- app_assoc. cbn [app]. do 2 f_equal.
      * rewrite Nat.add_0_r, nth_lookup, Hcs. done.
      * rewrite <- seq_shift, map_map. apply map_ext. intros i.
        f_equal. f_equal. lia.
Qed.

End RoundRobin.

(** C6. The descriptors are used round-robin.  An acquire that finds no
    live connection makes one connect attempt, with the descriptor under
    the cursor, and moves the cursor one position on, whether or not the
    attempt succeeds; and the [k] connect attempts of a driver fresh from
    [NewGormRepositoryDriver] go to the descriptors 0, 1, 2, ... modulo
    their number, whatever the outcomes. *)
Theorem descriptors_round_robin bk :
  (forall s cs,
     currentDb (driver s) = None ->
     ring.Value_string (connectionStrings (driver s)) = Some cs ->
     exists r s',
       db bk s = Ret r s'
       /\ opened (history s') = opened (history s) ++ [cs]
       /\ connectionStrings (driver s')
          = ring.Next (connectionStrings (driver s))
       /\ match r with
          | inl _ => currentDb (driver s') = None
          | inr c => c = Handle (driverName (driver s)) cs
                     /\ currentDb (driver s') = Some c
          end)
  /\ (forall name css d h k,
        NewGormRepositoryDriver name css = Some d ->
        exists s',
          reacquire bk k {| driver := d; history := h |} = Ret tt s'
          /\ opened (history s') =
             opened h
             ++ map (fun i => nth (i mod length css) css EmptyString)
                    (seq 0 k)).
Proof.
  split.
  - intros s cs Hc Hv.
    destruct (db_rotates bk s cs Hc Hv) as [r [s' [H1 [H2 [_ [H3 H4]]]]]].
    by exists r, s'.
  - intros name css d h k Hnew.
    destruct css as [|c0 css]; [done |].
    rewrite NewGormRepositoryDriver_spec in Hnew by done.
    injection Hnew as <-.
    set (s := {| driver := _; history := h |}).
    destruct (reacquire_from bk (c0 :: css) k s 0%nat) as [s' [Hrun Hop]];
      [done | by rewrite Nat.Div0.mod_0_l |].
    by exists s'.
Qed.

Lemma descriptors_round_robin_witness :
  exists s',
    reacquire Samples.unreachable 3 Samples.fresh = Ret tt s'
    /\ opened (history s') = ["host=a"; "host=b"; "host=a"].
Proof.
  destruct (descriptors_round_robin Samples.unreachable) as [_ H].
  destruct (H "postgres" ["host=a"; "host=b"] Samples.two_hosts [] 3%nat
              eq_refl) as [s' [Hrun Hop]].
  exists s'. split; [exact Hrun | exact Hop].
Defined.

(* ================================================================== *)
(** * The retry loop *)

Lemma IsRetriableDbError_spec e :
  IsRetriableDbError (Some e) = true <-> transient e.
Proof.
  unfold IsRetriableDbError, transient.
  destruct (Contains (Error e) FdbErrNotCommitted) eqn:H1;
    [| destruct (Contains (Error e) FdbErrPastVersion) eqn:H2;
       [| destruct (Contains (Error e) FdbErrOnlineDdlInProgress) eqn:H3]];
    cbn [orb].
  - apply Contains_spec in H1 as [a [b Hab]].
    split; [intros _ | done]. exists FdbErrNotCommitted, a, b.
    split; [set_solver | done].
  - apply Contains_spec in H2 as [a [b Hab]].
    split; [intros _ | done]. exists FdbErrPastVersion, a, b.
    split; [set_solver | done].
  - apply Contains_spec in H3 as [a [b Hab]].
    split; [intros _ | done]. exists FdbErrOnlineDdlInProgress, a, b.
    split; [set_solver | done].
  - split; [done |]. intros [marker [a [b [Hin Hab]]]].
    assert (Hc : Contains (Error e) marker = true)
      by (apply Contains_spec; eauto).
    rewrite !elem_of_cons, elem_of_nil in Hin.
    destruct Hin as [-> | [-> | [-> | []]]]; congruence.
Qed.

Section Retry.

Variable K : Z.
Variable fn : nat -> option gorm.DB.

Hypothesis K_small : K < max_int.
Hypothesis always_transient :
  forall i, exists r e,
    fn i = Some r /\ gorm.Error r = Some e /\ transient e.



End Retry.



(* ================================================================== *)
(** * Raw queries: scalar destinations *)

Section RawScalar.

Variable bk : Backend.

Lemma Scan1_inv ty row x :
  Scan1 bk ty row = inr x ->
  exists cell, row = [cell] /\ convert bk ty cell = inr x.
Proof.
  unfold Scan1, Scan.
  destruct row as [|cell [|cell' row]]; cbn; [done | | done].
  destruct (convert bk ty cell) as [e | v] eqn:Hc; [done |].
  cbn. intros [= <-]. by exists cell.
Qed.


End RawScalar.

Section RawRun.

Variable bk : Backend.

(** A raw query that returns nil acquired a handle, met no error in
    [db.Raw] nor in [Rows()], unpacked the rows without error and closed
    them. *)
Lemma Raw_success_inv result query args s dest' s' :
  Raw bk result query args s = Ret (None, dest') s' ->
  exists evs db rows s2 s3,
    history s2 = history s ++ evs ++ [EvRows db query args (inr rows)]
    /\ Raw_dispatch bk db query args rows result s2 = Ret (None, dest') s3
    /\ history s' = history s3 ++ [EvRowsClose db].
Proof.
  intros Hrun. unfold Raw, withDb, call, reset in Hrun. run_step.
  destruct (db bk s) as [[e0 | c] s1 |] eqn:Hdb; [done | | done].
  destruct (db_history bk s _ _ Hdb) as [evs [Hh _]].
  cbn in Hrun. repeat exec_in Hrun; try done.
  all: injection Hrun as <- <-.
  all: match goal with
       | Hd : Raw_dispatch _ _ _ _ ?rows _ ?s2 = Ret ?a ?s3,
         Ha : ?a.1 = None |- _ =>
           destruct a as [? ?]; cbn in Ha; subst;
           exists (evs ++ [EvCall c (db_Raw query args)
                             (gorm_call bk (history s1) c (db_Raw query args))]),
                  c, rows, s2, s3
       end.
  all: split; [cbn [history]; by rewrite Hh, <- !app_assoc | by split].
Qed.

End RawRun.



(* ================================================================== *)
(** * Raw queries: string-keyed map destinations *)

Section RawMap.

Variable bk : Backend.

Lemma convert_all_inv conv row : forall vs,
  convert_all conv row = inr vs ->
  length vs = length row
  /\ forall i cell, row !! i = Some cell ->
       exists v, conv cell = inr v /\ vs !! i = Some v.
Proof.
  induction row as [|c row IH]; intros vs Hvs; cbn in Hvs.
  - injection Hvs as <-. by split.
  - destruct (conv c) as [e | v] eqn:Hc; [done |].
    destruct (convert_all conv row) as [e | vs'] eqn:Hrow; [done |].
    injection Hvs as <-. destruct (IH vs' eq_refl) as [Hlen Hval].
    split; [cbn; by rewrite Hlen |].
    intros [|i] cell Hi; cbn in Hi.
    + injection Hi as <-. by exists v.
    + by apply Hval.
Qed.

Lemma Scan_inv conv n row vs :
  Scan conv n row = inr vs ->
  length row = n /\ length vs = n
  /\ forall i cell, row !! i = Some cell ->
       exists v, conv cell = inr v /\ vs !! i = Some v.
Proof.
  unfold Scan. destruct (Nat.eqb_spec (length row) n) as [Hn |]; [| done].
  intros Hvs. destruct (convert_all_inv conv row vs Hvs) as [Hlen Hval].
  split; [done |]. split; [congruence | done].
Qed.

(** A key that is no column name is left alone. *)
Lemma assign_columns_other columns : forall values m k,
  k ∉ columns ->
  assign_columns columns values m !! k = m !! k.
Proof.
  unfold assign_columns.
  induction columns as [|c columns IH]; intros values m k Hk; [done |].
  destruct values as [|v values]; [done |].
  cbn. rewrite IH by set_solver.
  apply lookup_insert_ne. set_solver.
Qed.

(** A column name ends up with the value of its last column. *)
Lemma assign_columns_lookup columns : forall values m i col v,
  columns !! i = Some col ->
  values !! i = Some v ->
  (forall j, (i < j)%nat -> columns !! j <> Some col) ->
  assign_columns columns values m !! col = Some v.
Proof.
  induction columns as [|c columns IH]; intros values m i col v Hc Hv Hlast;
    [done |].
  destruct values as [|v0 values]; [done |].
  change (assign_columns (c :: columns) (v0 :: values) m)
    with (assign_columns columns values (<[c := v0]> m)).
  destruct i as [|i]; cbn in Hc, Hv.
  - injection Hc as ->. injection Hv as ->.
    rewrite assign_columns_other; [apply lookup_insert_eq |].
    intros Hin. apply list_elem_of_lookup in Hin as [j Hj].
    apply (Hlast (S j)); [lia | done].
  - apply (IH values _ i col v Hc Hv).
    intros j Hij. apply (Hlast (S j)). lia.
Qed.

Lemma scan_map_other ty columns rows : forall m err m' k,
  scan_map bk ty columns rows m = (err, m') ->
  k ∉ columns ->
  m' !! k = m !! k.
Proof.
  induction rows as [|row rows IH]; intros m err m' k Hscan Hk;
    cbn in Hscan.
  - by injection Hscan as _ <-.
  - destruct (Scan (convert bk ty) (length columns) row) as [e | values].
    + by injection Hscan as _ <-.
    + rewrite (IH _ _ _ k Hscan Hk). by apply assign_columns_other.
Qed.

(** After a loop without error the map is what the last row made of
    the map the rows before it left. *)
Lemma scan_map_last ty columns rows : forall m m' row,
  scan_map bk ty columns rows m = (None, m') ->
  last rows = Some row ->
  exists values before,
    Scan (convert bk ty) (length columns) row = inr values
    /\ m' = assign_columns columns values before.
Proof.
  induction rows as [|r rows IH]; intros m m' row Hscan Hlast; [done |].
  cbn in Hscan.
  destruct (Scan (convert bk ty) (length columns) r) as [e | values] eqn:Hr;
    [done |].
  destruct rows as [|r' rows].
  - cbn in Hscan, Hlast. simplify_eq. by exists values, m.
  - rewrite last_cons_cons in Hlast. by apply (IH _ _ _ Hscan Hlast).
Qed.

End RawMap.

(** C8, as the code has it.  After a raw query into a string-keyed map
    has returned nil: keys that are no column name hold what the
    destination held before the call (nothing when it was nil); a result
    without rows therefore leaves the map as it was; and when there is a
    last row, every column name holds what [Scan] made of that row's
    value in the last column of that name.  So a nil or empty
    destination and distinct column names give exactly one entry per
    column, with the values of the last row. *)
Theorem Raw_map_last_row bk ty m0 query args s dest' s' :
  Raw bk (DMap ty m0) query args s = Ret (None, dest') s' ->
  exists evs db rows columns m',
    history s' = history s ++ evs
    /\ EvRows db query args (inr rows) ∈ evs
    /\ Columns rows = inr columns
    /\ dest' = DMap ty (Some m')
    /\ (forall k, k ∉ columns -> m' !! k = default ∅ m0 !! k)
    /\ (data rows = [] -> m' = default ∅ m0)
    /\ forall row,
         last (data rows) = Some row ->
         length row = length columns
         /\ (forall i col cell,
               columns !! i = Some col ->
               row !! i = Some cell ->
               (forall j, (i < j)%nat -> columns !! j <> Some col) ->
               exists v, convert bk ty cell = inr v /\ m' !! col = Some v)
         /\ (NoDup columns -> default ∅ m0 = ∅ ->
               dom m' = list_to_set columns
               /\ size m' = length columns).
Proof.
  intros Hrun.
  destruct (Raw_success_inv bk _ _ _ _ _ _ Hrun)
    as (evs & c & rows & s2 & s3 & Hh2 & Hd & Hh').
  unfold Raw_dispatch in Hd.
  destruct (Columns rows) as [e | columns] eqn:Hcols;
    [run_step; simplify_eq |].
  destruct (scan_map bk ty columns (data rows) (default ∅ m0))
    as [err m'] eqn:Hscan.
  run_step. cbn in Hd. injection Hd as -> <- <-.
  exists (evs ++ [EvRows c query args (inr rows); EvRowsClose c]),
         c, rows, columns, m'.
  assert (Hother : forall k, k ∉ columns -> m' !! k = default ∅ m0 !! k)
    by (intros k; apply (scan_map_other bk _ _ _ _ _ _ k Hscan)).
  split; [by rewrite Hh', Hh2, <- !app_assoc |].
  split; [rewrite elem_of_app, elem_of_cons; right; by left |].
  split; [done |]. split; [done |]. split; [exact Hother |].
  split; [intros Hnil; rewrite Hnil in Hscan; by injection Hscan as <- |].
  intros row Hlast.
  destruct (scan_map_last bk _ _ _ _ _ _ Hscan Hlast)
    as (values & before & Hrow & ->).
  destruct (Scan_inv _ _ _ _ Hrow) as (Hlen & Hlenv & Hval).
  assert (Hcol : forall i col cell,
            columns !! i = Some col -> row !! i = Some cell ->
            (forall j, (i < j)%nat -> columns !! j <> Some col) ->
            exists v, convert bk ty cell = inr v
              /\ assign_columns columns values before !! col = Some v).
  { intros i col cell Hi Hcell Hlater.
    destruct (Hval i cell Hcell) as [v [Hconv Hv]].
    exists v. split; [done |].
    by apply (assign_columns_lookup columns values before i). }
  split; [done |]. split; [exact Hcol |].
  intros Hnodup Hempty.
  assert (Hdom : dom (assign_columns columns values before)
                 = list_to_set columns).
  { apply set_eq. intros k. rewrite elem_of_dom, elem_of_list_to_set. split.
    - intros Hsome. destruct (decide (k ∈ columns)) as [| Hk]; [done |].
      rewrite (Hother k Hk), Hempty, lookup_empty in Hsome.
      by destruct Hsome.
    - intros Hk. apply list_elem_of_lookup in Hk as [i Hi].
      destruct (lookup_lt_is_Some_2 row i) as [cell Hcell].
      { rewrite Hlen. by apply lookup_lt_Some in Hi. }
      destruct (Hcol i k cell Hi Hcell) as [v [_ Hv]]; [| by exists v].
      intros j Hij Hj. pose proof (NoDup_lookup _ _ _ _ Hnodup Hi Hj). lia. }
  split; [exact Hdom |].
  by rewrite <- size_dom, Hdom, size_list_to_set.
Qed.

Lemma Raw_map_last_row_witness :
  exists dest' s',
    Raw (Samples.answering Samples.first_datum (fun _ => Samples.ok))
      (DMap TIface None) Samples.select_first_datum [] Samples.live
    = Ret (None, dest') s'
    /\ exists m',
         dest' = DMap TIface (Some m')
         /\ size m' = 3%nat
         /\ dom m' = list_to_set ["id"; "name"; "home_planet"]
         /\ m' !! "id" = Some (GIface (CInt64 1))
         /\ m' !! "name" = Some (GIface (CString "Name0"))
         /\ m' !! "home_planet" = Some (GIface (CString "Zurg")).
Proof.
  eexists _, _. split; [reflexivity |].
  destruct (Raw_map_last_row
              (Samples.answering Samples.first_datum (fun _ => Samples.ok))
              TIface None Samples.select_first_datum [] Samples.live _ _ eq_refl)
    as (evs & c & rows & columns & m' & Hh & Hin & Hcols & Hd & _ & _ & Hrow).
  cbn in Hh. subst evs.
  apply list_elem_of_In in Hin. cbn in Hin.
  destruct Hin as [Hin | [Hin | [Hin | []]]]; try discriminate Hin.
  injection Hin as <- <-.
  injection Hcols as <-.
  destruct (Hrow [CInt64 1; CString "Name0"; CString "Zurg"] eq_refl)
    as (_ & Hcol & Hsize).
  destruct Hsize as [Hdom Hsz];
    [repeat constructor; set_solver | reflexivity |].
  exists m'. split; [exact Hd |]. split; [exact Hsz |]. split; [exact Hdom |].
  split; [| split].
  - destruct (Hcol 0%nat "id" (CInt64 1) eq_refl eq_refl) as [v [Hv Hm]].
    { intros [|[|[|j]]] Hj Hcj; cbn in Hcj; try lia; discriminate. }
    injection Hv as <-. exact Hm.
  - destruct (Hcol 1%nat "name" (CString "Name0") eq_refl eq_refl)
      as [v [Hv Hm]].
    { intros [|[|[|j]]] Hj Hcj; cbn in Hcj; try lia; discriminate. }
    injection Hv as <-. exact Hm.
  - destruct (Hcol 2%nat "home_planet" (CString "Zurg") eq_refl eq_refl)
      as [v [Hv Hm]].
    { intros [|[|[|j]]] Hj Hcj; cbn in Hcj; try lia; discriminate. }
    injection Hv as <-. exact Hm.
Defined.

(** C8 as the specification words it fails on the code: a query without
    rows leaves a nil destination as the empty map although the result
    has the column "id"; and a destination that already holds an entry
    keeps it next to the entry for "id". *)
Lemma Raw_map_not_one_entry_per_column :
  (exists s',
     Raw Samples.quiet (DMap TIface None)
       "SELECT id FROM my_datum WHERE name = 'nobody'" [] Samples.live
     = Ret (None, DMap TIface (Some ∅)) s'
     /\ EvRows (Handle "postgres" "host=a")
          "SELECT id FROM my_datum WHERE name = 'nobody'" []
          (inr {| Columns := inr ["id"]; data := [] |}) ∈ history s'
     /\ size (∅ : gmap string GoVal) <> length ["id"])
  /\ (exists m' s',
        Raw (Samples.answering Samples.one_id (fun _ => Samples.ok))
          (DMap TIface (Some {["note" := GIface (CString "kept")]}))
          "SELECT id FROM my_datum LIMIT 1" [] Samples.live
        = Ret (None, DMap TIface (Some m')) s'
        /\ EvRows (Handle "postgres" "host=a")
             "SELECT id FROM my_datum LIMIT 1" [] (inr Samples.one_id) ∈ history s'
        /\ m' !! "note" = Some (GIface (CString "kept"))
        /\ m' !! "id" = Some (GIface (CInt64 7))
        /\ size m' <> length ["id"]).
Proof.
  split.
  - eexists. split; [reflexivity |]. split; [| done].
    apply list_elem_of_In. cbn. tauto.
  - eexists _, _. split; [reflexivity |]. split; [| split; [| split]].
    + apply list_elem_of_In. cbn. tauto.
    + by vm_compute.
    + by vm_compute.
    + by vm_compute.
Qed.

(* ================================================================== *)
(** * More about [errorlib.Merge] *)

Lemma append_empty_r (a : string) : a +:+ EmptyString = a.
Proof. induction a as [|c a IH]; [done | by rewrite append_cons, IH]. Qed.

(** [Merge] of two or more elements, by the non-nil messages. *)
Lemma Merge_long e1 e2 errs :
  Z.of_nat (length (e1 :: e2 :: errs)) <= max_int ->
  Merge (e1 :: e2 :: errs) =
  match messages (e1 :: e2 :: errs) with
  | [] => None
  | [m] => Some (errors_New m)
  | ms => Some (errors_New (fmt_int (Z.of_nat (length ms)) +:+ " errors: "
                            +:+ String.concat ", " ms))
  end.
Proof.
  intros Hlen. set (l := e1 :: e2 :: errs) in *.
  assert (HM : Merge l =
    let st := fold_left Merge_step l (EmptyString, 0) in
    if st.2 =? 0 then None
    else if st.2 =? 1 then Some (errors_New st.1)
    else Some (errors_New (fmt_int st.2 +:+ " errors: " +:+ st.1)))
    by done.
  rewrite (fold_Merge_step l [] Hlen
             : fold_left Merge_step l (EmptyString, 0) = _) in HM.
  rewrite app_nil_l in HM. cbv zeta in HM. cbn [fst snd] in HM.
  rewrite HM. destruct (messages l) as [|m1 [|m2 ms]]; [done | done |].
  destruct (Z.eqb_spec (Z.of_nat (length (m1 :: m2 :: ms))) 0);
    [cbn in *; lia |].
  destruct (Z.eqb_spec (Z.of_nat (length (m1 :: m2 :: ms))) 1);
    [cbn in *; lia | done].
Qed.

Lemma messages_nil_inv errs :
  messages errs = [] -> forall e, e ∈ errs -> e = None.
Proof.
  induction errs as [|[e0|] errs IH]; intros Hm e He.
  - by apply elem_of_nil in He.
  - done.
  - apply elem_of_cons in He as [-> | He]; [done |]. by apply IH.
Qed.

Lemma messages_elem e errs : Some e ∈ errs -> Error e ∈ messages errs.
Proof.
  intros He. unfold messages. apply list_elem_of_omap.
  exists (Some e). by split.
Qed.

Lemma Merge_None_iff errs :
  Z.of_nat (length errs) <= max_int ->
  Merge errs = None <-> forall e, e ∈ errs -> e = None.
Proof.
  intros Hlen. destruct errs as [|e1 [|e2 errs]].
  - split; [intros _ e He; by apply elem_of_nil in He | done].
  - change (Merge [e1]) with e1. split.
    + intros -> e He. by apply list_elem_of_singleton in He.
    + intros H. apply H. by left.
  - rewrite Merge_long by done. split.
    + destruct (messages (e1 :: e2 :: errs)) as [|m1 [|m2 ms]] eqn:Hm;
        [| done | done].
      intros _. by apply messages_nil_inv.
    + intros Hall. by rewrite (messages_all_nil _ Hall).
Qed.

(** X1. No error is lost: [Merge] yields nil exactly when every element
    of the slice is nil. *)
Theorem Merge_nil_iff errs :
  Z.of_nat (length errs) <= max_int ->
  Merge errs = None <-> forall e, e ∈ errs -> e = None.
Proof. exact (Merge_None_iff errs). Qed.

Lemma Merge_nil_iff_witness :
  Merge [None; Some (errors_New "rollback failed"); None] <> None.
Proof.
  intros H.
  assert (Hlen : Z.of_nat (length
            [None; Some (errors_New "rollback failed"); None]) <= max_int)
    by (vm_compute; discriminate).
  pose proof (proj1 (Merge_nil_iff _ Hlen) H
                (Some (errors_New "rollback failed"))) as Hnil.
  assert (Hin : Some (errors_New "rollback failed")
                ∈ [None; Some (errors_New "rollback failed"); None])
    by (right; left).
  discriminate (Hnil Hin).
Defined.

Lemma concat_length_ge sep ms :
  (total_length ms <= String.length (String.concat sep ms))%nat.
Proof.
  induction ms as [|m [|m' ms] IH]; [done | cbn; lia |].
  change (String.concat sep (m :: m' :: ms))
    with (m +:+ sep +:+ String.concat sep (m' :: ms)).
  rewrite !length_append.
  change (total_length (m :: m' :: ms))
    with (String.length m + total_length (m' :: ms))%nat.
  lia.
Qed.

Lemma Merge_Some_message errs e :
  Z.of_nat (length errs) <= max_int ->
  Merge errs = Some e ->
  (total_length (messages errs) <= String.length (Error e))%nat
  /\ forall m, m ∈ messages errs -> exists a b, Error e = a +:+ m +:+ b.
Proof.
  intros Hlen HM.
  assert (Hcat : forall (ms : list string) m, m ∈ ms ->
            exists a b, String.concat ", " ms = a +:+ m +:+ b).
  { induction ms as [|m0 [|m1 ms] IH]; intros m Hm.
    - by apply elem_of_nil in Hm.
    - apply list_elem_of_singleton in Hm as ->.
      exists EmptyString, EmptyString.
      by rewrite append_empty_l, append_empty_r.
    - change (String.concat ", " (m0 :: m1 :: ms))
        with (m0 +:+ ", " +:+ String.concat ", " (m1 :: ms)).
      apply elem_of_cons in Hm as [-> | Hm].
      + by exists EmptyString, (", " +:+ String.concat ", " (m1 :: ms)).
      + destruct (IH m Hm) as [a [b Hab]].
        exists (m0 +:+ ", " +:+ a), b.
        by rewrite Hab, !append_assoc. }
  destruct errs as [|e1 [|e2 errs]]; [done | |].
  - change (Merge [e1]) with e1 in HM. subst e1.
    change (messages [Some e]) with [Error e]. split; [cbn; lia |].
    intros m Hm. apply list_elem_of_singleton in Hm as ->.
    exact (Hcat [Error e] (Error e) ltac:(by left)).
  - rewrite Merge_long in HM by done.
    destruct (messages (e1 :: e2 :: errs)) as [|m1 [|m2 ms]] eqn:Hm;
      [done | |].
    + injection HM as <-. split; [cbn; lia |]. exact (Hcat [m1]).
    + pose proof (concat_length_ge ", " (m1 :: m2 :: ms)) as Hge.
      pose proof (Hcat (m1 :: m2 :: ms)) as Hsub.
      set (joined := String.concat ", " (m1 :: m2 :: ms)) in *.
      set (n := fmt_int (Z.of_nat (length (m1 :: m2 :: ms)))) in *.
      assert (He : Error e = n +:+ " errors: " +:+ joined)
        by (by injection HM as <-).
      rewrite He. split.
      * rewrite !length_append. lia.
      * intros m Hin. destruct (Hsub m Hin) as [a [b Hab]].
        exists (n +:+ " errors: " +:+ a), b.
        by rewrite Hab, !append_assoc.
Qed.

(** X2. The merged message contains every non-nil message and is
    never shorter than all of them together, which is what the package's
    test of several errors checks. *)
Theorem Merge_keeps_every_message errs e :
  Z.of_nat (length errs) <= max_int ->
  Merge errs = Some e ->
  (total_length (messages errs) <= String.length (Error e))%nat
  /\ forall m, m ∈ messages errs -> exists a b, Error e = a +:+ m +:+ b.
Proof. exact (Merge_Some_message errs e). Qed.

Lemma Merge_keeps_every_message_witness :
  exists e,
    Merge [Some (errors_New "error: this is a test");
           Some (errors_New "error: this is still a test")] = Some e
    /\ (String.length "error: this is a test"
        + String.length "error: this is still a test"
        <= String.length (Error e))%nat.
Proof.
  eexists. split; [reflexivity |].
  assert (Hlen : Z.of_nat (length
            [Some (errors_New "error: this is a test");
             Some (errors_New "error: this is still a test")]) <= max_int)
    by (vm_compute; discriminate).
  destruct (Merge_keeps_every_message _ _ Hlen eq_refl) as [Hl _].
  cbn in Hl |- *. lia.
Defined.

(* ================================================================== *)
(** * How the classifications survive tags and merging *)

Lemma Merge_nil_rollback e : Merge [Some e; None] = Some (errors_New (Error e)).
Proof.
  unfold Merge, Merge_step. cbn [fold_left fst snd].
  change (0 <? 0) with false. cbv iota. by rewrite int_add_0_1.
Qed.

Lemma transient_in_context e e' a b :
  transient e -> Error e' = a +:+ Error e +:+ b -> transient e'.
Proof.
  intros (marker & x & y & Hin & Hxy) He'.
  exists marker, (a +:+ x), (y +:+ b). split; [done |].
  by rewrite He', Hxy, !append_assoc.
Qed.

(** X3. An error that [IsRetriableDbError] accepts is still accepted
    after the driver has put its operation tag in front of it, and after
    [Merge] has merged it with other errors (as a failed transaction
    does with the rollback's error). *)
Theorem retriable_survives_tag_and_merge e :
  IsRetriableDbError (Some e) = true ->
  (forall tag, IsRetriableDbError (Some (Errorf_s tag e)) = true)
  /\ (forall errs,
        Z.of_nat (length errs) <= max_int ->
        Some e ∈ errs ->
        IsRetriableDbError (Merge errs) = true).
Proof.
  intros He. apply IsRetriableDbError_spec in He. split.
  - intros tag. apply IsRetriableDbError_spec.
    apply (transient_in_context e _ tag EmptyString He).
    by rewrite append_empty_r.
  - intros errs Hlen Hin.
    destruct (Merge errs) as [e' |] eqn:HM.
    + apply IsRetriableDbError_spec.
      destruct (Merge_Some_message errs e' Hlen HM) as [_ Hsub].
      destruct (Hsub (Error e) (messages_elem e errs Hin)) as [a [b Hab]].
      by apply (transient_in_context e e' a b).
    + by pose proof (proj1 (Merge_None_iff errs Hlen) HM _ Hin).
Qed.

Lemma retriable_survives_tag_and_merge_witness :
  IsRetriableDbError
    (Some (Errorf_s "gorm driver: upd- "
             (errors_New "commit aborted: 1020 - not_committed"))) = true
  /\ IsRetriableDbError
       (Merge [Some (errors_New "commit aborted: 1020 - not_committed");
               Some (errors_New "pq: rollback failed")]) = true.
Proof.
  assert (He : IsRetriableDbError
            (Some (errors_New "commit aborted: 1020 - not_committed")) = true)
    by reflexivity.
  destruct (retriable_survives_tag_and_merge _ He) as [Htag Hmerge].
  split; [apply Htag |].
  apply Hmerge; [vm_compute; discriminate | by left].
Defined.

(** X4. [IsRecordNotFoundError] is false for nil, and true exactly for
    the errors whose text ends in gorm's "record not found": the gorm
    value itself, and what it becomes once a driver method has put its
    tag in front or a transaction has merged it with a nil rollback
    error, although neither is the gorm value any more. *)
Theorem IsRecordNotFoundError_by_suffix :
  IsRecordNotFoundError None = false
  /\ IsRecordNotFoundError (Some ErrRecordNotFound) = true
  /\ (forall e, IsRecordNotFoundError (Some e) = true <->
        exists t, Error e = t +:+ "record not found")
  /\ (forall tag e,
        IsRecordNotFoundError (Some e) = true ->
        IsRecordNotFoundError (Some (Errorf_s tag e)) = true
        /\ Errorf_s tag e <> ErrRecordNotFound)
  /\ (forall e,
        IsRecordNotFoundError (Some e) = true ->
        IsRecordNotFoundError (Merge [Some e; None]) = true
        /\ Merge [Some e; None] <> Some ErrRecordNotFound).
Proof.
  split; [done |]. split; [done |]. split; [| split].
  - intros e. unfold IsRecordNotFoundError. apply HasSuffix_spec.
  - intros tag e He. split; [| done].
    unfold IsRecordNotFoundError in *. apply HasSuffix_spec in He as [t Ht].
    apply HasSuffix_spec. exists (tag +:+ t).
    unfold Errorf_s. cbn [Error]. by rewrite Ht, append_assoc.
  - intros e He. rewrite Merge_nil_rollback. split; [| done].
    exact He.
Qed.

Lemma IsRecordNotFoundError_by_suffix_witness :
  IsRecordNotFoundError
    (Some (Errorf_s "gorm driver: fw- " ErrRecordNotFound)) = true.
Proof.
  destruct IsRecordNotFoundError_by_suffix as (_ & Hs & _ & Htag & _).
  exact (proj1 (Htag "gorm driver: fw- " ErrRecordNotFound Hs)).
Defined.

(** An error with the driver's tag in front is no connection error. *)
Lemma tagged_not_connection msg :
  isConnectionError (errors_New ("gorm driver: " +:+ msg)) = false.
Proof.
  unfold isConnectionError. cbn [Error].
  destruct (HasPrefix ("gorm driver: " +:+ msg) "dial tcp ") eqn:Hp; [| done].
  apply HasPrefix_spec in Hp as [t Ht]. discriminate Ht.
Qed.

Section TagsAndConnections.

Variable bk : Backend.

(** X5. [Delete] puts its tag on the error inside the unit of work, so
    no answer of the backend, not even a refused connection, makes it
    drop the live connection: with a live connection it issues the one
    delete, returns its error under the tag and leaves the driver as it
    was. *)
Theorem Delete_keeps_connection value s c err s' :
  currentDb (driver s) = Some c ->
  Delete bk value s = Ret err s' ->
  driver s' = driver s
  /\ exists res,
       history s' = history s ++ [EvCall c (db_Delete value) res]
       /\ err = Errorf_s "gorm driver: del- " <$> gorm.Error res.
Proof.
  intros Hc Hrun. unfold Delete, withDb, call, reset in Hrun. run_step.
  rewrite (db_live bk s c Hc) in Hrun. cbn in Hrun.
  destruct (gorm.Error (gorm_call bk (history s) c (db_Delete value)))
    as [e |] eqn:He; cbn in Hrun.
  - change (Errorf_s "gorm driver: del- " e)
      with (errors_New ("gorm driver: " +:+ ("del- " +:+ Error e))) in Hrun.
    rewrite tagged_not_connection in Hrun. cbn in Hrun.
    injection Hrun as <- <-. split; [done |].
    eexists. split; [done |]. by rewrite He.
  - injection Hrun as <- <-. split; [done |].
    eexists. split; [done |]. by rewrite He.
Qed.

(** X6. [Save] returns the backend's error as it is, so a refused
    connection makes it drop the live connection (the cursor stays), and
    the next acquire opens the descriptor under the cursor. *)
Theorem Save_refused_reconnects value s c e cs :
  currentDb (driver s) = Some c ->
  gorm.Error (gorm_call bk (history s) c (db_Save value)) = Some e ->
  isConnectionError e = true ->
  ring.Value_string (connectionStrings (driver s)) = Some cs ->
  exists s',
    Save bk value s = Ret (Some e) s'
    /\ currentDb (driver s') = None
    /\ connectionStrings (driver s') = connectionStrings (driver s)
    /\ exists r s'',
         db bk s' = Ret r s''
         /\ opened (history s'') = opened (history s') ++ [cs].
Proof.
  intros Hc He Hconn Hv.
  set (s1 := {| driver := {| driverName := driverName (driver s);
                            connectionStrings := connectionStrings (driver s);
                            currentDb := None |};
                history := history s
                  ++ [EvCall c (db_Save value)
                        (gorm_call bk (history s) c (db_Save value))] |}).
  assert (Hrun : Save bk value s = Ret (Some e) s1).
  { unfold Save, withDb, call, reset. run_step.
    rewrite (db_live bk s c Hc). cbn. rewrite He. cbn. by rewrite Hconn. }
  exists s1. split; [done |]. split; [done |]. split; [done |].
  destruct (db_rotates bk s1 cs) as (r & s'' & Hdb & Hop & _);
    [done | done |].
  by exists r, s''.
Qed.

End TagsAndConnections.

Lemma Delete_keeps_connection_witness :
  exists err s',
    Delete Samples.refusing Samples.record Samples.live = Ret err s'
    /\ err <> None
    /\ driver s' = driver Samples.live.
Proof.
  eexists _, _. split; [reflexivity |]. split; [done |].
  exact (proj1 (Delete_keeps_connection Samples.refusing Samples.record
                  Samples.live (Handle "postgres" "host=a") _ _
                  eq_refl eq_refl)).
Defined.

Lemma Save_refused_reconnects_witness :
  exists s',
    Save Samples.refusing Samples.record Samples.live
    = Ret (Some (errors_New "dial tcp 10.0.0.1:5432: connection refused")) s'
    /\ currentDb (driver s') = None.
Proof.
  destruct (Save_refused_reconnects Samples.refusing Samples.record
              Samples.live (Handle "postgres" "host=a")
              (errors_New "dial tcp 10.0.0.1:5432: connection refused")
              "host=a" eq_refl eq_refl eq_refl eq_refl)
    as (s' & Hrun & Hnone & _).
  by exists s'.
Defined.

(* ================================================================== *)
(** * Construction, and what no operation does to the ring *)

(** X7. [NewGormRepositoryDriver] panics exactly when it is given no
    connection string; otherwise the driver has no live connection yet,
    holds the descriptors in the order given and has its cursor on the
    first one. *)
Theorem NewGormRepositoryDriver_needs_descriptor name css :
  (NewGormRepositoryDriver name css = None <-> css = [])
  /\ forall d,
       NewGormRepositoryDriver name css = Some d ->
       driverName d = name
       /\ currentDb d = None
       /\ ring.items (connectionStrings d) = Some <$> css
       /\ ring.Value_string (connectionStrings d) = head css
       /\ ring_ok (connectionStrings d).
Proof.
  destruct css as [|c css].
  - split; [done |]. intros d Hd. discriminate Hd.
  - rewrite NewGormRepositoryDriver_spec by done. split; [done |].
    intros d [= <-]. cbn. repeat split.
    exists (c :: css). split; [done |]. cbn. lia.
Qed.

Lemma NewGormRepositoryDriver_needs_descriptor_witness :
  NewGormRepositoryDriver "postgres" [] = None
  /\ ring.Value_string (connectionStrings Samples.two_hosts) = Some "host=a".
Proof.
  destruct (NewGormRepositoryDriver_needs_descriptor "postgres" [])
    as [Hnone _].
  destruct (NewGormRepositoryDriver_needs_descriptor "postgres"
              ["host=a"; "host=b"]) as [_ Hsome].
  split; [by apply Hnone |].
  exact (proj1 (proj2 (proj2 (proj2 (Hsome Samples.two_hosts eq_refl))))).
Defined.

Section NeverPanics.

Variable bk : Backend.



















(** X9. A second acquire right after a successful one hands out the
    same handle, asks the backend nothing and does not move the
    cursor. *)
Theorem acquire_reuses_connection s c s1 :
  db bk s = Ret (inr c) s1 ->
  currentDb (driver s1) = Some c /\ db bk s1 = Ret (inr c) s1.
Proof.
  intros Hdb.
  assert (Hc1 : currentDb (driver s1) = Some c).
  { destruct (currentDb (driver s)) as [c0 |] eqn:Hc.
    - rewrite (db_live bk s c0 Hc) in Hdb. by injection Hdb as <- <-.
    - destruct (ring.Value_string (connectionStrings (driver s)))
        as [cs |] eqn:Hv.
      + rewrite (db_connect bk s cs Hc Hv) in Hdb. cbv zeta in Hdb.
        destruct (gorm_Open _ _ _ _); [done |].
        destruct (sql_Ping _ _ _); [done |]. by injection Hdb as <- <-.
      + unfold db in Hdb. run_step. by rewrite Hc, Hv in Hdb. }
  split; [done |]. by apply db_live.
Qed.

End NeverPanics.


Lemma acquire_reuses_connection_witness :
  exists s1,
    db Samples.quiet Samples.fresh = Ret (inr (Handle "postgres" "host=a")) s1
    /\ db Samples.quiet s1 = Ret (inr (Handle "postgres" "host=a")) s1.
Proof.
  eexists. split; [lazy; reflexivity |].
  exact (proj2 (acquire_reuses_connection Samples.quiet Samples.fresh
                  (Handle "postgres" "host=a") _ eq_refl)).
Defined.

(* ================================================================== *)
(** * More about the retry loops *)

Section RetryMore.

Variable K : Z.
Variable fn : nat -> option gorm.DB.
Variable n : nat.

Hypothesis n_int : Z.of_nat n <= max_int.
Hypothesis retriable_before :
  forall i, (i < n)%nat ->
    exists r, fn i = Some r /\ IsRetriableDbError (gorm.Error r) = true.

Lemma retriable_not_nil err :
  IsRetriableDbError err = true -> not_nil err = true.
Proof. by destruct err. Qed.

(** [m] turns of [DbFnWithRetry] that all meet a retriable error, below
    the limit or without one. *)
Lemma DbFn_retries m : forall (j : nat) res0 sl fuel,
  (K <= 0 \/ Z.of_nat (j + m) <= K) ->
  (j + m <= n)%nat ->
  exists res0',
    DbFnWithRetry_loop K fn (m + fuel) (Z.of_nat j) res0 j sl =
    DbFnWithRetry_loop K fn fuel (Z.of_nat (j + m)) res0' (j + m)
      (sl ++ map (fun i => backoff (Z.of_nat i)) (seq (S j) m)).
Proof.
  induction m as [|m IH]; intros j res0 sl fuel HK Hn.
  - exists res0. by rewrite Nat.add_0_r, app_nil_r.
  - destruct (retriable_before j ltac:(lia)) as (r & Hfn & Hret).
    destruct (IH (S j) (Some r) (sl ++ [backoff (Z.of_nat (S j))]) fuel)
      as [res0' Hrun]; [lia | lia |].
    exists res0'. cbn [Nat.add DbFnWithRetry_loop].
    replace ((0 <? K) && (K <? Z.of_nat j)) with false.
    2: { symmetry. apply andb_false_iff.
         destruct HK; [left; apply Z.ltb_ge | right; apply Z.ltb_ge]; lia. }
    rewrite Hfn, Hret, (retriable_not_nil _ Hret). cbn [andb].
    rewrite int_add_small
      by (unfold in_range, min_int, max_int, int_bits in *; lia).
    replace (Z.of_nat j + 1) with (Z.of_nat (S j)) by lia.
    rewrite Hrun. replace (S j + m)%nat with (j + S m)%nat by lia.
    by rewrite <- app_assoc.
Qed.

(** The same for [DbExecWithRetry], which has no limit to stay below. *)
Lemma DbExec_retries (Exec : nat -> gorm.DB) m : forall (j : nat) sl fuel,
  (forall i, (i < n)%nat -> IsRetriableDbError (gorm.Error (Exec i)) = true) ->
  (j + m <= n)%nat ->
  DbExecWithRetry_loop Exec (m + fuel) (Z.of_nat j) j sl =
  DbExecWithRetry_loop Exec fuel (Z.of_nat (j + m)) (j + m)
    (sl ++ map (fun i => backoff (Z.of_nat i)) (seq (S j) m)).
Proof.
  induction m as [|m IH]; intros j sl fuel Hret Hn.
  - by rewrite Nat.add_0_r, app_nil_r.
  - cbn [Nat.add DbExecWithRetry_loop].
    rewrite (Hret j) by lia.
    rewrite (retriable_not_nil _ (Hret j ltac:(lia))). cbn [andb].
    rewrite int_add_small
      by (unfold in_range, min_int, max_int, int_bits in *; lia).
    replace (Z.of_nat j + 1) with (Z.of_nat (S j)) by lia.
    rewrite IH by (done || lia).
    replace (S j + m)%nat with (j + S m)%nat by lia.
    by rewrite <- app_assoc.
Qed.

End RetryMore.

(** X10. [DbFnWithRetry] stops at the first answer that is no retriable
    error: after [n] retriable errors ([n] within the limit, or any [n]
    when the limit is zero or negative) it has called the unit of work
    [n + 1] times, has slept before each retry, and returns that answer
    unchanged, or the "res0 is nil" error when that answer is a nil
    pointer. *)
Theorem DbFnWithRetry_stops_at_first_final K fn n :
  (K <= 0 \/ Z.of_nat n <= K) ->
  Z.of_nat n <= max_int ->
  (forall i, (i < n)%nat ->
     exists r, fn i = Some r /\ IsRetriableDbError (gorm.Error r) = true) ->
  (forall r, fn n = Some r -> final r) ->
  forall fuel, (n < fuel)%nat ->
    DbFnWithRetry K fn fuel =
    Some {| returned :=
              match fn n with
              | Some r => r
              | None =>
                  only_Error (errors_New
                    ("oops, res0 is nil; is your fn returning a nil *gorm.DB? If so, that's not allowed; FdbRetryLimit="
                     +:+ fmt_int K))
              end;
            calls := S n;
            sleeps := backoffs n |}.
Proof.
  intros HK Hn Hret Hfinal fuel Hfuel.
  replace fuel with (n + S (fuel - n - 1))%nat by lia.
  unfold DbFnWithRetry.
  destruct (DbFn_retries K fn n Hn Hret n 0%nat None [] (S (fuel - n - 1)))
    as [res0' Hrun]; [by rewrite Nat.add_0_l | lia |].
  rewrite (Hrun : DbFnWithRetry_loop K fn _ 0 None 0%nat [] = _).
  cbn [Nat.add app DbFnWithRetry_loop].
  replace ((0 <? K) && (K <? Z.of_nat n)) with false.
  2: { symmetry. apply andb_false_iff.
       destruct HK; [left; apply Z.ltb_ge | right; apply Z.ltb_ge]; lia. }
  destruct (fn n) as [r |] eqn:Hfn; [| done].
  specialize (Hfinal r eq_refl). unfold final in Hfinal.
  by rewrite Hfinal, andb_false_r.
Qed.

Lemma DbFnWithRetry_stops_at_first_final_witness :
  DbFnWithRetry 100 Cases.third_time_lucky 5 =
  Some {| returned := Samples.ok; calls := 3;
          sleeps := [10000000; 20000000] |}.
Proof.
  apply (DbFnWithRetry_stops_at_first_final 100 Cases.third_time_lucky 2).
  - right. by vm_compute.
  - by vm_compute.
  - intros [|[|i]] Hi; [by eexists | by eexists | lia].
  - intros r [= <-]. reflexivity.
  - lia.
Defined.

(** X11. With a limit of zero or less [DbFnWithRetry] has no cap: a
    unit of work that always meets a retriable error is retried for
    ever, whatever the number of turns allowed to the loop. *)
Theorem DbFnWithRetry_unlimited K fn :
  K <= 0 ->
  (forall i, exists r,
     fn i = Some r /\ IsRetriableDbError (gorm.Error r) = true) ->
  forall fuel, DbFnWithRetry K fn fuel = None.
Proof.
  intros HK Hret fuel. unfold DbFnWithRetry.
  enough (H : forall sl c res0 a,
            DbFnWithRetry_loop K fn fuel a res0 c sl = None) by apply H.
  induction fuel as [|fuel IH]; intros sl c res0 a; [done |].
  cbn [DbFnWithRetry_loop].
  replace (0 <? K) with false by (symmetry; apply Z.ltb_ge; lia).
  cbn [andb]. destruct (Hret c) as (r & Hfn & Hr).
  rewrite Hfn, Hr, (retriable_not_nil _ Hr). cbn [andb]. apply IH.
Qed.

Lemma DbFnWithRetry_unlimited_witness :
  DbFnWithRetry 0 Samples.always_not_committed 50 = None.
Proof.
  apply (DbFnWithRetry_unlimited 0 Samples.always_not_committed).
  - lia.
  - intros i. by eexists.
Defined.

(** X12. [DbExecWithRetry] executes the statement again after every
    retriable error and returns the first answer that is none: after [n]
    retriable errors that is the answer of execution [n + 1], unchanged,
    with a sleep before each retry. *)
Theorem DbExecWithRetry_stops_at_first_final Exec n :
  Z.of_nat n <= max_int ->
  (forall i, (i < n)%nat -> IsRetriableDbError (gorm.Error (Exec i)) = true) ->
  final (Exec n) ->
  forall fuel, (n < fuel)%nat ->
    DbExecWithRetry Exec fuel =
    Some {| returned := Exec n; calls := S n; sleeps := backoffs n |}.
Proof.
  intros Hn Hret Hfinal fuel Hfuel.
  replace fuel with (n + S (fuel - n - 1))%nat by lia.
  unfold DbExecWithRetry.
  rewrite (DbExec_retries n Hn Exec n 0%nat [] (S (fuel - n - 1)) Hret
             ltac:(lia)
           : DbExecWithRetry_loop Exec _ 0 0%nat [] = _).
  cbn [Nat.add app DbExecWithRetry_loop].
  unfold final in Hfinal. by rewrite Hfinal, andb_false_r.
Qed.

Lemma DbExecWithRetry_stops_at_first_final_witness :
  DbExecWithRetry Cases.third_exec_lucky 5 =
  Some {| returned := Samples.ok; calls := 3;
          sleeps := [10000000; 20000000] |}.
Proof.
  apply (DbExecWithRetry_stops_at_first_final Cases.third_exec_lucky 2).
  - by vm_compute.
  - intros [|[|i]] Hi; [done | done | lia].
  - reflexivity.
  - lia.
Defined.

(** X13. [DbExecWithRetry] has no cap at all: [FdbRetryLimit] plays no
    part in it, and a statement that always meets a retriable error is
    executed again for ever. *)
Theorem DbExecWithRetry_never_gives_up Exec :
  (forall i, IsRetriableDbError (gorm.Error (Exec i)) = true) ->
  forall fuel, DbExecWithRetry Exec fuel = None.
Proof.
  intros Hret fuel. unfold DbExecWithRetry.
  enough (H : forall sl c a,
            DbExecWithRetry_loop Exec fuel a c sl = None) by apply H.
  induction fuel as [|fuel IH]; intros sl c a; [done |].
  cbn [DbExecWithRetry_loop].
  rewrite Hret, (retriable_not_nil _ (Hret c)). cbn [andb]. apply IH.
Qed.

Lemma DbExecWithRetry_never_gives_up_witness :
  DbExecWithRetry Cases.always_past_version 200 = None.
Proof.
  apply (DbExecWithRetry_never_gives_up Cases.always_past_version).
  intros i. reflexivity.
Defined.

(** X14. The wait before retry number [a] is [a] times 10 ms (in
    nanoseconds) for every [a] up to 922337203685; no shorter or
    negative wait comes from overflow before that. *)
Theorem backoff_linear a :
  0 <= a <= 922337203685 -> backoff a = a * 10000000.
Proof.
  intros Ha. unfold backoff, int_mul.
  rewrite (wrap_in_range (a * 10))
    by (unfold in_range, min_int, max_int, int_bits; lia).
  rewrite wrap_in_range
    by (unfold in_range, min_int, max_int, int_bits; lia).
  lia.
Qed.

Lemma backoff_linear_witness : backoff 3 = 30000000.
Proof. apply (backoff_linear 3). lia. Defined.

(* ================================================================== *)
(** * The calls of transactions *)

Lemma gorm_calls_app h1 h2 :
  gorm_calls (h1 ++ h2) = gorm_calls h1 ++ gorm_calls h2.
Proof. apply omap_app. Qed.

Lemma gorm_calls_none evs :
  (forall c q res, EvCall c q res ∉ evs) -> gorm_calls evs = [].
Proof.
  induction evs as [|ev evs IH]; intros Hno; [done |].
  assert (Hrest : gorm_calls evs = [])
    by (apply IH; intros c q res Hin; apply (Hno c q res); by right).
  destruct ev; try exact Hrest.
  exfalso. eapply Hno. by left.
Qed.

Section TransactionCalls.

Variable bk : Backend.

(** An acquire adds no gorm call to the history. *)
Lemma db_gorm_calls s r s1 :
  db bk s = Ret r s1 -> gorm_calls (history s1) = gorm_calls (history s).
Proof.
  intros Hdb. destruct (db_history bk s r s1 Hdb) as (evs & Hh & Hno).
  by rewrite Hh, gorm_calls_app, (gorm_calls_none evs Hno), app_nil_r.
Qed.

(** The loop over the values issues the call for a prefix of them, for
    all of them when it ends without error; an error comes after at
    least one call. *)
Lemma each_value_calls tx q values : forall s err s',
  each_value bk tx q values s = Ret err s' ->
  driver s' = driver s
  /\ exists k,
       (k <= length values)%nat
       /\ gorm_calls (history s') =
          gorm_calls (history s) ++ (pair tx <$> (q <$> take k values))
       /\ (err = None -> k = length values).
Proof.
  induction values as [|v values IH]; intros s err s' Hrun; cbn in Hrun.
  - injection Hrun as <- <-. split; [done |]. exists 0%nat.
    by rewrite app_nil_r.
  - unfold call in Hrun. run_step.
    destruct (gorm.Error (gorm_call bk (history s) tx (q v))) as [e |] eqn:He.
    + injection Hrun as <- <-. split; [done |]. exists 1%nat.
      cbn. rewrite gorm_calls_app, take_0. split; [lia | by split].
    + apply IH in Hrun as (Hd & k & Hk & Hcalls & Herr). split; [done |].
      exists (S k). cbn in *. split; [lia |].
      rewrite Hcalls, gorm_calls_app, <- app_assoc. split; [done |].
      intros Hnone. by rewrite (Herr Hnone).
Qed.

(** A transaction made of one loop over [values]. *)
Lemma each_value_transaction q values s err s' :
  inTransaction bk [fun tx => each_value bk tx q values] s = Ret err s' ->
  exists new,
    gorm_calls (history s') = gorm_calls (history s) ++ new
    /\ (err = None -> exists c, new = committed c (q <$> values))
    /\ (err <> None ->
          new = []
          \/ exists c k,
               (k <= length values)%nat
               /\ (new = rolled_back c (q <$> take k values)
                   \/ new = rolled_back c ((q <$> values) ++ [db_Commit]))).
Proof.
  intros Hrun. unfold inTransaction, withDb, run_txFuncs, call, reset in Hrun.
  run_step.
  destruct (db bk s) as [[e0 | c] s1 |] eqn:Hdb; [| | done].
  - injection Hrun as <- <-. exists [].
    rewrite (db_gorm_calls s _ _ Hdb), app_nil_r.
    split; [done |]. split; [done | by left].
  - pose proof (db_gorm_calls s _ _ Hdb) as Hcalls.
    cbn in Hrun. repeat exec_in Hrun.
    all: try discriminate Hrun.
    all: try match goal with
             | H : Merge [Some _; _] = None |- _ =>
                 by apply Merge_with_rollback in H
             end.
    all: try match goal with
             | H : each_value _ _ _ _ _ = Ret _ _ |- _ =>
                 apply each_value_calls in H as (Hd & k & Hk & Hev & Hall);
                 cbn [history] in Hev
             end.
    all: injection Hrun as <- <-; cbn [history driver];
      rewrite ?gorm_calls_app, ?Hev, ?gorm_calls_app, Hcalls, <- ?app_assoc;
      eexists; (split; [reflexivity |]);
      (split; [intros Herr; try discriminate Herr
              | intros Herr; try (by destruct Herr)]).
    all: first
      [ exists c; rewrite (Hall eq_refl), firstn_all; reflexivity
      | right; exists c, k; split; [done |]; left; reflexivity
      | right; exists c, k; split; [done |]; right;
        rewrite (Hall eq_refl), firstn_all; unfold rolled_back;
        rewrite fmap_app, <- app_assoc; reflexivity
      | right; exists c, 0%nat; split; [lia |]; left; rewrite take_0;
        reflexivity ].
Qed.

(** X15. [SaveMultiple] is all or nothing at the level of the calls it
    issues.  Without values it does nothing.  Otherwise a nil result
    means one transaction that saved every value, in order, and was
    committed; an error means that nothing was issued (no connection) or
    that the one transaction was rolled back, after the saves of a
    prefix of the values or after a failed commit. *)
Theorem SaveMultiple_commits_or_rolls_back values s err s' :
  SaveMultiple bk values s = Ret err s' ->
  exists new,
    gorm_calls (history s') = gorm_calls (history s) ++ new
    /\ (values = [] -> err = None /\ new = [])
    /\ (values <> [] -> err = None ->
          exists c, new = committed c (db_Save <$> values))
    /\ (err <> None ->
          new = []
          \/ exists c k,
               (k <= length values)%nat
               /\ (new = rolled_back c (db_Save <$> take k values)
                   \/ new = rolled_back c ((db_Save <$> values) ++ [db_Commit]))).
Proof.
  intros Hrun. destruct values as [|v values].
  - injection Hrun as <- <-. exists []. rewrite app_nil_r.
    split; [done |]. split; [done |]. split; done.
  - apply each_value_transaction in Hrun as (new & Hcalls & Hok & Hko).
    exists new. split; [done |]. split; [done |]. split; [| done].
    intros _. exact Hok.
Qed.

(** X16. [DeleteMultiple] on arguments that pass its guard: a nil
    result means one committed transaction that deleted every value, in
    order; an error always carries the tag "gorm driver: dlm- ", and
    then nothing was issued or the one transaction was rolled back. *)
Theorem DeleteMultiple_commits_or_rolls_back values s err s' :
  values <> [] ->
  DeleteMultiple bk values s = Ret err s' ->
  exists new,
    gorm_calls (history s') = gorm_calls (history s) ++ new
    /\ (err = None -> exists c, new = committed c (db_Delete <$> values))
    /\ (forall e, err = Some e ->
          HasPrefix (Error e) "gorm driver: dlm- " = true
          /\ (new = []
              \/ exists c k,
                   (k <= length values)%nat
                   /\ (new = rolled_back c (db_Delete <$> take k values)
                       \/ new = rolled_back c
                                ((db_Delete <$> values) ++ [db_Commit])))).
Proof.
  intros Hne Hrun. unfold DeleteMultiple in Hrun.
  destruct values as [|v values]; [done |].
  destruct ((length (v :: values) =? 1)%nat
            && Kind_eqb (Kind_of (default VNil (head (v :: values)))) Slice).
  - injection Hrun as <- <-. exists []. rewrite app_nil_r.
    split; [done |]. split; [done |].
    intros e [= <-]. split; [| by left].
    apply HasPrefix_spec. by eexists.
  - unfold bind in Hrun.
    destruct (inTransaction bk [fun tx => each_value bk tx db_Delete (v :: values)] s)
      as [err0 s0 |] eqn:Htx; [| done].
    apply each_value_transaction in Htx as (new & Hcalls & Hok & Hko).
    exists new. destruct err0 as [e0 |]; injection Hrun as <- <-.
    + split; [done |]. split; [done |].
      intros e [= <-]. split; [apply HasPrefix_spec; by eexists |].
      by apply Hko.
    + split; [done |]. split; [by intros _; apply Hok | done].
Qed.

End TransactionCalls.

Lemma SaveMultiple_commits_or_rolls_back_witness :
  exists err s',
    SaveMultiple (Samples.answering Samples.no_rows Cases.second_save_fails)
      [Samples.record; Cases.second_record; Samples.record] Samples.fresh
    = Ret err s'
    /\ err <> None
    /\ exists new,
         gorm_calls (history s') = gorm_calls (history Samples.fresh) ++ new.
Proof.
  eexists _, _. split; [lazy; reflexivity |]. split; [done |].
  destruct (SaveMultiple_commits_or_rolls_back
              (Samples.answering Samples.no_rows Cases.second_save_fails)
              [Samples.record; Cases.second_record; Samples.record]
              Samples.fresh _ _ eq_refl) as (new & Hcalls & _).
  by exists new.
Defined.

Lemma DeleteMultiple_commits_or_rolls_back_witness :
  exists err s',
    DeleteMultiple Samples.quiet [Samples.record; Cases.second_record]
      Samples.fresh
    = Ret err s'
    /\ exists new,
         gorm_calls (history s') = gorm_calls (history Samples.fresh) ++ new.
Proof.
  eexists _, _. split; [lazy; reflexivity |].
  destruct (DeleteMultiple_commits_or_rolls_back Samples.quiet
              [Samples.record; Cases.second_record] Samples.fresh _ _
              ltac:(done) eq_refl) as (new & Hcalls & _).
  by exists new.
Defined.

(* ================================================================== *)
(** * Lookups and updates outside a transaction *)

Section SingleCalls.

Variable bk : Backend.

(** X17. [GetOrCreate] issues a create only after a lookup that answered
    [gorm.ErrRecordNotFound], and [created] tells exactly that: when it
    is true the calls were the lookup and the create on one handle; when
    it is false there was the lookup alone, or no call at all and an
    error (no connection).  Every error carries the tag
    "gorm driver: goc- ". *)
Theorem GetOrCreate_creates_only_when_missing value s created err s' :
  GetOrCreate bk value s = Ret (created, err) s' ->
  exists new,
    gorm_calls (history s') = gorm_calls (history s) ++ new
    /\ (if created
        then exists c lookup,
               new = [(c, db_Where_First value); (c, db_Create value)]
               /\ EvCall c (db_Where_First value) lookup ∈ history s'
               /\ gorm.Error lookup = Some ErrRecordNotFound
        else (new = [] /\ err <> None)
             \/ exists c lookup,
                  new = [(c, db_Where_First value)]
                  /\ last (history s') = Some (EvCall c (db_Where_First value) lookup)
                  /\ gorm.Error lookup <> Some ErrRecordNotFound
                  /\ err = Errorf_s "gorm driver: goc- " <$> gorm.Error lookup)
    /\ (forall e, err = Some e ->
          HasPrefix (Error e) "gorm driver: goc- " = true).
Proof.
  intros Hrun. unfold GetOrCreate, withDb, call, reset in Hrun. run_step.
  destruct (db bk s) as [[e0 | c] s1 |] eqn:Hdb; [| | done].
  - injection Hrun as <- <- <-. exists [].
    rewrite (db_gorm_calls bk s _ _ Hdb), app_nil_r.
    split; [done |]. split; [by left |].
    intros e [= <-]. apply HasPrefix_spec. by eexists.
  - pose proof (db_gorm_calls bk s _ _ Hdb) as Hcalls.
    cbn in Hrun.
    destruct (gorm.Error (gorm_call bk (history s1) c (db_Where_First value)))
      as [[| msg] |] eqn:Hlookup; cbn in Hrun.
    + repeat exec_in Hrun.
      all: injection Hrun as <- <- <-; cbn [history driver];
        rewrite !gorm_calls_app, Hcalls, <- app_assoc;
        eexists; (split; [reflexivity |]);
        (split;
         [ eexists c, _; split; [reflexivity |]; split; [| exact Hlookup];
           rewrite !elem_of_app, !elem_of_cons; left; right; by left
         | intros e0 [= <-]; apply HasPrefix_spec; by eexists ]).
    + repeat exec_in Hrun.
      all: injection Hrun as <- <- <-; cbn [history driver];
        rewrite !gorm_calls_app, Hcalls;
        eexists; (split; [reflexivity |]);
        (split;
         [ right; eexists c, _; split; [reflexivity |];
           split; [by rewrite last_snoc |]; rewrite Hlookup; by split
         | intros e0 [= <-]; apply HasPrefix_spec; by eexists ]).
    + injection Hrun as <- <- <-. cbn [history driver].
      rewrite !gorm_calls_app, Hcalls.
      eexists. split; [reflexivity |]. split; [| done].
      right. eexists c, _. split; [reflexivity |].
      split; [by rewrite last_snoc |]. rewrite Hlookup. by split.
Qed.

(** X18. [Update] runs the column update once, outside any transaction,
    and accepts every number of affected rows: a nil error comes with
    the row count the update reported, whatever it is; an error carries
    the tag "gorm driver: upd- " and comes with a row count of 0. *)
Theorem Update_reports_rows value values s rowsAffected err s' :
  Update bk value values s = Ret (rowsAffected, err) s' ->
  exists new,
    gorm_calls (history s') = gorm_calls (history s) ++ new
    /\ (new = [] \/ exists c, new = [(c, db_UpdateColumns value values)])
    /\ (err = None ->
          exists c res,
            last (history s') = Some (EvCall c (db_UpdateColumns value values) res)
            /\ gorm.Error res = None
            /\ rowsAffected = gorm.RowsAffected res)
    /\ (forall e, err = Some e ->
          rowsAffected = 0
          /\ HasPrefix (Error e) "gorm driver: upd- " = true).
Proof.
  intros Hrun. unfold Update, withDb, call, reset in Hrun. run_step.
  destruct (db bk s) as [[e0 | c] s1 |] eqn:Hdb; [| | done].
  - injection Hrun as <- <- <-. exists [].
    rewrite (db_gorm_calls bk s _ _ Hdb), app_nil_r.
    split; [done |]. split; [by left |]. split; [done |].
    intros e [= <-]. split; [done |]. apply HasPrefix_spec. by eexists.
  - pose proof (db_gorm_calls bk s _ _ Hdb) as Hcalls.
    cbn in Hrun.
    destruct (gorm.Error (gorm_call bk (history s1) c
                            (db_UpdateColumns value values)))
      as [e |] eqn:Hres; cbn in Hrun.
    + repeat exec_in Hrun.
      all: injection Hrun as <- <- <-; cbn [history driver];
        rewrite !gorm_calls_app, Hcalls;
        eexists; (split; [reflexivity |]);
        (split; [right; by exists c |]); (split; [done |]);
        intros e0 [= <-]; (split; [done |]);
        apply HasPrefix_spec; by eexists.
    + injection Hrun as <- <- <-. cbn [history driver].
      rewrite !gorm_calls_app, Hcalls.
      eexists. split; [reflexivity |]. split; [right; by exists c |].
      split; [| done]. intros _. eexists c, _.
      split; [by rewrite last_snoc |]. by split.
Qed.

End SingleCalls.

Lemma GetOrCreate_creates_only_when_missing_witness :
  exists created err s',
    GetOrCreate Samples.quiet Samples.record Samples.fresh
    = Ret (created, err) s'
    /\ created = false
    /\ exists new,
         gorm_calls (history s') = gorm_calls (history Samples.fresh) ++ new.
Proof.
  eexists _, _, _. split; [lazy; reflexivity |]. split; [reflexivity |].
  destruct (GetOrCreate_creates_only_when_missing Samples.quiet
              Samples.record Samples.fresh _ _ _ eq_refl)
    as (new & Hcalls & _).
  by exists new.
Defined.

Lemma Update_reports_rows_witness :
  exists s',
    Update (Samples.answering Samples.no_rows Samples.two_rows)
      Samples.record (VStruct "MyDatum" [VString "Venus"]) Samples.live
    = Ret (2, None) s'
    /\ exists c res,
         last (history s')
         = Some (EvCall c (db_UpdateColumns Samples.record
                             (VStruct "MyDatum" [VString "Venus"])) res)
         /\ gorm.RowsAffected res = 2.
Proof.
  eexists. split; [lazy; reflexivity |].
  destruct (Update_reports_rows
              (Samples.answering Samples.no_rows Samples.two_rows)
              Samples.record (VStruct "MyDatum" [VString "Venus"])
              Samples.live 2 None _ eq_refl)
    as (new & _ & _ & Hok & _).
  destruct (Hok eq_refl) as (c & res & Hlast & _ & Hrows).
  by exists c, res.
Defined.

(* ================================================================== *)
(** * Raw queries: the run, and the other shapes *)

Lemma rows_opened_app h1 h2 :
  rows_opened (h1 ++ h2) = rows_opened h1 ++ rows_opened h2.
Proof. apply omap_app. Qed.

Lemma rows_closed_app h1 h2 :
  rows_closed (h1 ++ h2) = rows_closed h1 ++ rows_closed h2.
Proof. apply omap_app. Qed.

Lemma connecting_no_rows evs :
  Forall connecting evs -> rows_opened evs = [] /\ rows_closed evs = [].
Proof.
  induction 1 as [|ev evs Hev _ [IHo IHc]]; [done |].
  by destruct ev.
Qed.

Section RawShapes.

Variable bk : Backend.

(** An acquire does nothing but set up a connection. *)
Lemma db_connects_only s r s1 :
  db bk s = Ret r s1 ->
  exists evs, history s1 = history s ++ evs /\ Forall connecting evs.
Proof.
  destruct (currentDb (driver s)) as [c|] eqn:Hc.
  - rewrite (db_live bk s c Hc). intros [= ? <-].
    exists []. by rewrite app_nil_r.
  - destruct (ring.Value_string (connectionStrings (driver s)))
      as [cs|] eqn:Hv.
    + rewrite (db_connect bk s cs Hc Hv). cbv zeta.
      destruct (gorm_Open _ _ _ _).
      * intros [= ? <-]. eexists. split; [done |]. by repeat constructor.
      * destruct (sql_Ping _ _ _); intros [= ? <-]; cbn;
          rewrite <- app_assoc; (eexists; split; [done |]);
          by repeat constructor.
    + unfold db. run_step. by rewrite Hc, Hv.
Qed.

(** Every run of [Raw]: either no result set was obtained and the
    destination is as it was, or one was obtained, unpacked by the type
    switch and closed. *)
Lemma Raw_run_inv result query args s r s' :
  Raw bk result query args s = Ret r s' ->
  (exists evs e,
     history s' = history s ++ evs
     /\ rows_opened evs = [] /\ rows_closed evs = []
     /\ r = (Some (Errorf_s "gorm driver: raw- " e), result))
  \/ exists evs c rows s2 d s3,
       history s2 = history s ++ evs ++ [EvRows c query args (inr rows)]
       /\ rows_opened evs = [] /\ rows_closed evs = []
       /\ Raw_dispatch bk c query args rows result s2 = Ret d s3
       /\ history s' = history s3 ++ [EvRowsClose c]
       /\ r = (Errorf_s "gorm driver: raw- " <$> d.1, d.2).
Proof.
  intros Hrun. unfold Raw, withDb, call, reset in Hrun. run_step.
  destruct (db bk s) as [[e0 | c] s1 |] eqn:Hdb; [| | done].
  - destruct (db_connects_only s _ _ Hdb) as (evs & Hh & Hconn).
    destruct (connecting_no_rows evs Hconn) as [Ho Hc].
    injection Hrun as <- <-. left. by exists evs, e0.
  - destruct (db_connects_only s _ _ Hdb) as (evs & Hh & Hconn).
    destruct (connecting_no_rows evs Hconn) as [Ho Hc].
    cbn in Hrun. repeat exec_in Hrun; try done.
    all: injection Hrun as <- <-.
    all: try match goal with
             | Hd : Raw_dispatch _ _ _ _ ?rows _ ?s2 = Ret ?a ?s3 |- _ =>
                 right;
                 exists (evs ++ [EvCall c (db_Raw query args)
                                   (gorm_call bk (history s1) c
                                      (db_Raw query args))]),
                        c, rows, s2, a, s3;
                 cbn [history];
                 (split; [by rewrite Hh, <- !app_assoc |]);
                 (split; [by rewrite rows_opened_app, Ho |]);
                 (split; [by rewrite rows_closed_app, Hc |]);
                 (split; [done |]); (split; [done |]);
                 match goal with
                 | Ha : a.1 = _ |- _ => by rewrite Ha
                 end
             end.
    all: left; eexists (evs ++ _), _; cbn [history];
      (split; [rewrite Hh, <- !app_assoc; reflexivity |]);
      (split; [by rewrite rows_opened_app, Ho |]);
      (split; [by rewrite rows_closed_app, Hc |]); reflexivity.
Qed.

(** The type switch adds no result set and closes none. *)
Lemma Raw_dispatch_rows c query args rows result s2 d s3 :
  Raw_dispatch bk c query args rows result s2 = Ret d s3 ->
  rows_opened (history s3) = rows_opened (history s2)
  /\ rows_closed (history s3) = rows_closed (history s2).
Proof.
  unfold Raw_dispatch. intros Hd.
  destruct result as [ty v | ty vs | ty vs | ty m | ty ms | v].
  6: { run_step. injection Hd as <- <-. cbn [history].
       by rewrite rows_opened_app, rows_closed_app, !app_nil_r. }
  all: repeat exec_in Hd; run_step; by simplify_eq.
Qed.

(** The scalar, slice and 2D shapes are assigned after the loop: an
    error leaves the destination as it was. *)
Lemma Raw_dispatch_assigned_at_end c query args rows result s2 d s3 :
  assigned_at_end result = true ->
  Raw_dispatch bk c query args rows result s2 = Ret d s3 ->
  d.1 <> None -> d.2 = result.
Proof.
  unfold Raw_dispatch. intros Hplain Hd Herr.
  destruct result as [ty v | ty vs | ty vs | ty m | ty ms | v]; try done.
  all: repeat exec_in Hd; run_step; by simplify_eq.
Qed.

Lemma scan_slice_inv ty rows : forall slice xs,
  scan_slice bk ty rows slice = inr xs ->
  exists ys,
    xs = slice ++ ys
    /\ Forall2 (fun row x => Scan1 bk ty row = inr x) rows ys.
Proof.
  induction rows as [|row rows IH]; intros slice xs Hscan; cbn in Hscan.
  - injection Hscan as <-. exists []. by rewrite app_nil_r.
  - destruct (Scan1 bk ty row) as [e | x] eqn:Hrow; [done |].
    destruct (IH _ _ Hscan) as (ys & -> & Hall).
    exists (x :: ys). rewrite <- app_assoc. split; [done |].
    by constructor.
Qed.

Lemma convert_all_Forall2 conv row : forall vs,
  convert_all conv row = inr vs ->
  Forall2 (fun cell v => conv cell = inr v) row vs.
Proof.
  induction row as [|c row IH]; intros vs Hvs; cbn in Hvs.
  - injection Hvs as <-. constructor.
  - destruct (conv c) as [e | v] eqn:Hc; [done |].
    destruct (convert_all conv row) as [e | vs'] eqn:Hrow; [done |].
    injection Hvs as <-. constructor; [done | by apply IH].
Qed.

Lemma Scan_Forall2 conv n row vs :
  Scan conv n row = inr vs ->
  length row = n /\ Forall2 (fun cell v => conv cell = inr v) row vs.
Proof.
  unfold Scan. destruct (Nat.eqb_spec (length row) n) as [Hn |]; [| done].
  intros Hvs. split; [done | by apply convert_all_Forall2].
Qed.

Lemma scan_slice2_inv ty columns rows : forall slice outs,
  scan_slice2 bk ty columns rows slice = inr outs ->
  exists ys,
    outs = slice ++ ys
    /\ (rows = [] /\ ys = []
        \/ exists cols,
             columns = inr cols
             /\ Forall2 (fun row out =>
                           Scan (convert_nullable bk ty) (length cols) row
                           = inr out) rows ys).
Proof.
  induction rows as [|row rows IH]; intros slice outs Hscan; cbn in Hscan.
  - injection Hscan as <-. exists []. rewrite app_nil_r. split; [done | by left].
  - destruct columns as [e | cols]; [done |].
    destruct (Scan (convert_nullable bk ty) (length cols) row)
      as [e | out] eqn:Hrow; [done |].
    destruct (IH _ _ Hscan) as (ys & -> & Hall).
    exists (out :: ys). rewrite <- app_assoc. split; [done |].
    right. exists cols. split; [done |]. constructor; [done |].
    destruct Hall as [[-> ->] | (cols' & [= <-] & Hall)]; [constructor | done].
Qed.


(** X19. A raw query into a slice destination ([*[]bool], [*[]int],
    ...) that returns nil replaces the slice: whatever it held before,
    it then holds one element per row of the result, in the order of
    the rows, each converted from the single column of its row; a
    result without rows gives the empty, non-nil slice. *)
Theorem Raw_slice_one_per_row ty old query args s dest' s' :
  Raw bk (DSlice ty old) query args s = Ret (None, dest') s' ->
  exists evs db rows xs,
    history s' = history s ++ evs
    /\ EvRows db query args (inr rows) ∈ evs
    /\ dest' = DSlice ty (Some xs)
    /\ Forall2 (fun row x =>
                  exists cell,
                    row = [cell] /\ convertAssign bk (elem ty) cell = inr x)
         (data rows) xs.
Proof.
  intros Hrun.
  destruct (Raw_success_inv bk _ _ _ _ _ _ Hrun)
    as (evs & c & rows & s2 & s3 & Hh2 & Hd & Hh').
  unfold Raw_dispatch in Hd.
  destruct (scan_slice bk (elem ty) (data rows) []) as [e | xs] eqn:Hscan;
    run_step; simplify_eq.
  destruct (scan_slice_inv _ _ _ _ Hscan) as (ys & -> & Hall).
  exists (evs ++ [EvRows c query args (inr rows); EvRowsClose c]), c, rows, ys.
  split; [by rewrite Hh', Hh2, <- !app_assoc |].
  split; [rewrite elem_of_app, elem_of_cons; right; by left |].
  split; [done |].
  eapply Forall2_impl; [exact Hall |].
  intros row x Hrow. destruct (Scan1_inv bk _ _ _ Hrow) as (cell & -> & Hconv).
  exists cell. split; [done |]. by destruct ty.
Qed.

(** X20. A raw query into a 2D destination ([*[][]string], ...) that
    returns nil replaces it by one inner slice per row, in the order of
    the rows; each inner slice has one element per column of the
    result, the zero value where the database returned NULL and the
    converted cell elsewhere. *)
Theorem Raw_slice2_one_per_row ty old query args s dest' s' :
  Raw bk (DSlice2 ty old) query args s = Ret (None, dest') s' ->
  exists evs db rows outs,
    history s' = history s ++ evs
    /\ EvRows db query args (inr rows) ∈ evs
    /\ dest' = DSlice2 ty (Some outs)
    /\ length outs = length (data rows)
    /\ (data rows <> [] ->
          exists cols,
            Columns rows = inr cols
            /\ Forall2 (fun row out =>
                          length out = length cols
                          /\ Forall2 (stored_2d bk ty) row out)
                 (data rows) outs).
Proof.
  intros Hrun.
  destruct (Raw_success_inv bk _ _ _ _ _ _ Hrun)
    as (evs & c & rows & s2 & s3 & Hh2 & Hd & Hh').
  unfold Raw_dispatch in Hd.
  destruct (scan_slice2 bk (elem ty) (Columns rows) (data rows) [])
    as [e | outs] eqn:Hscan; run_step; simplify_eq.
  destruct (scan_slice2_inv _ _ _ _ _ Hscan) as (ys & -> & Hall).
  exists (evs ++ [EvRows c query args (inr rows); EvRowsClose c]), c, rows, ys.
  split; [by rewrite Hh', Hh2, <- !app_assoc |].
  split; [rewrite elem_of_app, elem_of_cons; right; by left |].
  split; [done |]. cbn [app].
  destruct Hall as [[Hnil ->] | (cols & Hcols & Hall)].
  - rewrite Hnil. split; done.
  - split; [symmetry; by eapply Forall2_length |].
    intros _. exists cols. split; [done |].
    eapply Forall2_impl; [exact Hall |].
    intros row out Hrow. destruct (Scan_Forall2 _ _ _ _ Hrow) as [Hlen Hcells].
    split; [by rewrite <- (Forall2_length _ _ _ Hcells) |].
    eapply Forall2_impl; [exact Hcells |].
    intros cell v Hcell. unfold stored_2d, convert_nullable in *.
    destruct cell; try (by destruct ty); by injection Hcell as <-.
Qed.


(** X22. [Raw] is all or nothing for the scalar, slice and 2D
    destinations: when it returns an error, the destination holds what
    it held before the call, also when some rows had already been
    scanned; and the error carries the tag "gorm driver: raw- ". *)
Theorem Raw_error_keeps_destination result query args s e dest' s' :
  assigned_at_end result = true ->
  Raw bk result query args s = Ret (Some e, dest') s' ->
  dest' = result /\ HasPrefix (Error e) "gorm driver: raw- " = true.
Proof.
  intros Hplain Hrun.
  destruct (Raw_run_inv _ _ _ _ _ _ Hrun)
    as [(evs & e0 & _ & _ & _ & [= -> ->])
       | (evs & c & rows & s2 & d & s3 & _ & _ & _ & Hd & _ & [= He ->])].
  - split; [done |]. apply HasPrefix_spec. by eexists.
  - destruct d as [[e0 |] dest]; [| done]. injection He as ->.
    split; [| apply HasPrefix_spec; by eexists].
    by apply (Raw_dispatch_assigned_at_end _ _ _ _ _ _ _ _ Hplain Hd).
Qed.

(** X23. [Raw] closes every result set it obtains, whatever happens
    while the rows are unpacked: a run obtains at most one result set,
    closes it on the handle it came from, and closes nothing else; a
    run that returns nil did obtain one. *)
Theorem Raw_closes_its_rows result query args s err dest' s' :
  Raw bk result query args s = Ret (err, dest') s' ->
  exists opened,
    rows_opened (history s') = rows_opened (history s) ++ opened
    /\ rows_closed (history s') = rows_closed (history s) ++ opened
    /\ (length opened <= 1)%nat
    /\ (err = None -> exists c, opened = [c]
                                /\ last (history s') = Some (EvRowsClose c)).
Proof.
  intros Hrun.
  destruct (Raw_run_inv _ _ _ _ _ _ Hrun)
    as [(evs & e0 & Hh & Ho & Hc & [= -> ->])
       | (evs & c & rows & s2 & d & s3 & Hh2 & Ho & Hc & Hd & Hh' & [= -> ->])].
  - exists []. rewrite Hh, rows_opened_app, rows_closed_app, Ho, Hc.
    split; [done |]. split; [done |]. split; [cbn; lia | done].
  - destruct (Raw_dispatch_rows _ _ _ _ _ _ _ _ Hd) as [Ho3 Hc3].
    exists [c].
    rewrite Hh', rows_opened_app, rows_closed_app, Ho3, Hc3, Hh2,
      !rows_opened_app, !rows_closed_app, Ho, Hc.
    cbn. rewrite !app_nil_r.
    split; [done |]. split; [done |]. split; [lia |].
    intros _. exists c. split; [done |]. by rewrite last_snoc.
Qed.

(** X24. A result without rows: an [*int] destination is then set to 0
    and the query returns nil, whatever the destination held; each of
    the other scalar destinations keeps its value and the query returns
    the error of scanning closed rows, under the driver's tag. *)
Theorem Raw_scalar_no_rows ty v0 query args s c s1 rows :
  let res := gorm_call bk (history s1) c (db_Raw query args) in
  db bk s = Ret (inr c) s1 ->
  gorm.Error res = None ->
  gorm_Rows bk (history s1 ++ [EvCall c (db_Raw query args) res]) c query args
  = inr rows ->
  data rows = [] ->
  exists s',
    Raw bk (DScalar ty v0) query args s
    = Ret (match ty with
           | SInt => (None, DScalar SInt (GInt 0))
           | _ => (Some (errors_New "gorm driver: raw- sql: Rows are closed"),
                   DScalar ty v0)
           end) s'.
Proof.
  intros res Hdb Hres Hrows Hnil.
  unfold Raw, withDb, call. run_step. rewrite Hdb. cbn.
  fold res. rewrite Hres. cbn. rewrite Hrows. cbn.
  unfold Raw_dispatch. rewrite Hnil.
  destruct ty; cbn; by eexists.
Qed.

End RawShapes.

Lemma Raw_slice_one_per_row_witness :
  exists dest' s',
    Raw (Samples.answering Samples.three_ids (fun _ => Samples.ok))
      (DSlice SInt (Some [GInt 9])) "SELECT id FROM my_datum" [] Samples.live
    = Ret (None, dest') s'
    /\ dest' = DSlice SInt (Some [GInt 1; GInt 2; GInt 3])
    /\ exists evs db rows xs,
         history s' = history Samples.live ++ evs
         /\ EvRows db "SELECT id FROM my_datum" [] (inr rows) ∈ evs
         /\ dest' = DSlice SInt (Some xs)
         /\ Forall2 (fun row x =>
                       exists cell,
                         row = [cell] /\ Samples.conv TInt cell = inr x)
              (data rows) xs.
Proof.
  eexists _, _. split; [reflexivity |]. split; [reflexivity |].
  apply (Raw_slice_one_per_row
           (Samples.answering Samples.three_ids (fun _ => Samples.ok))
           SInt (Some [GInt 9]) "SELECT id FROM my_datum" [] Samples.live).
  reflexivity.
Defined.

Lemma Raw_slice2_one_per_row_witness :
  exists dest' s',
    Raw (Samples.answering Cases.two_columns (fun _ => Samples.ok))
      (DSlice2 SString None) "SELECT name, home_planet FROM my_datum" []
      Samples.live
    = Ret (None, dest') s'
    /\ dest' = DSlice2 SString
                 (Some [[GString "Name0"; GString EmptyString];
                        [GString "Name1"; GString "Zurg"]])
    /\ exists evs db rows outs,
         history s' = history Samples.live ++ evs
         /\ EvRows db "SELECT name, home_planet FROM my_datum" [] (inr rows)
              ∈ evs
         /\ dest' = DSlice2 SString (Some outs)
         /\ length outs = length (data rows).
Proof.
  eexists _, _. split; [reflexivity |]. split; [reflexivity |].
  destruct (Raw_slice2_one_per_row
              (Samples.answering Cases.two_columns (fun _ => Samples.ok))
              SString None "SELECT name, home_planet FROM my_datum" []
              Samples.live _ _ eq_refl)
    as (evs & c & rows & outs & Hh & Hin & Hd & Hlen & _).
  by exists evs, c, rows, outs.
Defined.


Lemma Raw_error_keeps_destination_witness :
  exists e dest' s',
    Raw (Samples.answering Samples.three_ids (fun _ => Samples.ok))
      (DSlice SBool (Some [GBool true])) "SELECT id FROM my_datum" []
      Samples.live
    = Ret (Some e, dest') s'
    /\ dest' = DSlice SBool (Some [GBool true])
    /\ HasPrefix (Error e) "gorm driver: raw- " = true.
Proof.
  eexists _, _, _. split; [reflexivity |].
  eapply (Raw_error_keeps_destination
            (Samples.answering Samples.three_ids (fun _ => Samples.ok))
            (DSlice SBool (Some [GBool true])) "SELECT id FROM my_datum" []
            Samples.live);
    reflexivity.
Defined.

Lemma Raw_closes_its_rows_witness :
  exists err dest' s',
    Raw (Samples.answering Samples.three_ids (fun _ => Samples.ok))
      (DSlice SBool None) "SELECT id FROM my_datum" [] Samples.live
    = Ret (err, dest') s'
    /\ err <> None
    /\ exists opened,
         rows_opened (history s') = rows_opened (history Samples.live) ++ opened
         /\ rows_closed (history s')
            = rows_closed (history Samples.live) ++ opened.
Proof.
  eexists _, _, _. split; [reflexivity |]. split; [done |].
  destruct (Raw_closes_its_rows
              (Samples.answering Samples.three_ids (fun _ => Samples.ok))
              (DSlice SBool None) "SELECT id FROM my_datum" [] Samples.live
              _ _ _ eq_refl)
    as (opened & Ho & Hc & _).
  by exists opened.
Defined.

Lemma Raw_scalar_no_rows_witness :
  exists s',
    Raw Samples.quiet (DScalar SInt (GInt 5))
      "SELECT id FROM my_datum WHERE name = 'nobody'" [] Samples.live
    = Ret (None, DScalar SInt (GInt 0)) s'.
Proof.
  apply (Raw_scalar_no_rows Samples.quiet SInt (GInt 5)
           "SELECT id FROM my_datum WHERE name = 'nobody'" [] Samples.live
           (Handle "postgres" "host=a") Samples.live Samples.no_rows);
    reflexivity.
Defined.
